(** * send_mail.py: a one-shot SMTP sender

    A shallow embedding of [send_mail.py] and of the parts of the CPython
    standard library it drives ([argparse], [email.mime], [email.generator],
    [smtplib]), followed by the properties of the script.

    Conventions.
    - A Python [str] is modelled by the byte string the operating system
      passed on the command line; the operations the script reaches
      (comparison, prefix test, search for a character) agree on both views.
    - Library routines whose bodies are not embedded (integer conversion,
      the negative-number pattern, RFC 2047 header folding) and everything
      that depends on the outside (the random boundary token, the replies of
      the SMTP peer) are fields of a [World]; every theorem holds for all
      worlds unless it names one.
    - The library code follows CPython 3.11. *)

From Stdlib Require Import ZArith String Ascii List Bool Lia DecimalString
  DecimalN.
From stdpp Require Import gmap strings list.
Import ListNotations.
Local Open Scope string_scope.

(** ** Python values, exceptions, effects *)

Module Python.

(** The objects that can end up in an attribute of the parsed namespace:
    [None] (the default), a [str], an [int], or a list of such. *)
#[warnings="-register-all"]
Inductive pyobj :=
| PyNone
| PyStr (s : string)
| PyInt (z : Z)
| PyList (items : list pyobj).

(** Exceptions by the only distinction the script draws: [SystemExit] and
    [KeyboardInterrupt] derive from [BaseException] alone, every other
    exception is an instance of [Exception]; [text] is [str(e)]. *)
Inductive exn :=
| SystemExit (code : Z)
| KeyboardInterrupt
| Exception (cls : string) (text : string).

Definition isinstance_Exception (e : exn) : bool :=
  match e with
  | Exception _ _ => true
  | _ => false
  end.

Inductive result (A : Type) :=
| Ok (a : A)
| Raise (e : exn).
Arguments Ok {A} a.
Arguments Raise {A} e.

Definition rbind {A B} (r : result A) (k : A -> result B) : result B :=
  match r with
  | Ok a => k a
  | Raise e => Raise e
  end.

(** The environment of one run of the script. *)
Record World := {
  (** [int(s)]: [None] stands for the [ValueError] of a malformed literal *)
  py_int : string -> option Z;
  (** [re.match('^-\d+$|^-\d*\.\d+$', s)], argparse's negative-number test *)
  negative_number_like : string -> bool;
  (** [policy.fold(name, value)] as the generator calls it on one header,
      together with the generator's check of the folded line *)
  policy_fold : string -> pyobj -> result string;
  (** [s.encode('utf-8')]: the bytes, or the [UnicodeEncodeError] of a
      string with lone surrogates *)
  encode_utf8 : string -> result string;
  (** the value [random.randrange(sys.maxsize)] returns to the generator *)
  randrange : N;
  (** the outcome of each [smtplib] call: [None] when it returns, the
      exception when it raises *)
  SMTP_SSL_raises : pyobj -> pyobj -> option exn;
  login_raises : pyobj -> pyobj -> option exn;
  sendmail_raises : pyobj -> pyobj -> string -> option exn;
  quit_raises : option exn
}.

End Python.
Export Python.

(** ** argparse *)

Module Argparse.

Inductive action_class := store | help.
Inductive type_func := str | int.

(** An action as [add_argument] registers it. *)
Record Action := {
  option_strings : list string;
  dest : string;
  class : action_class;
  type_ : type_func;
  required : bool
}.

Definition SUPPRESS : string := "==SUPPRESS==".

Definition prefix_chars (c : ascii) : bool := Ascii.eqb c "-".

Fixpoint lstrip_prefix_chars (s : string) : string :=
  match s with
  | String c s' => if prefix_chars c then lstrip_prefix_chars s' else s
  | EmptyString => s
  end.

Fixpoint replace_dash (s : string) : string :=
  match s with
  | String c s' => String (if Ascii.eqb c "-" then "_"%char else c) (replace_dash s')
  | EmptyString => EmptyString
  end.

(** [ArgumentParser(description=...)]: [add_help] defaults to true, so the
    parser starts with the [-h/--help] action. *)
Definition ArgumentParser : list Action :=
  [ {| option_strings := ["-h"; "--help"]; dest := SUPPRESS; class := help;
       type_ := str; required := false |} ].

(** [parser.add_argument(flag, type=ty, required=req)] for one long flag. *)
Definition add_argument (p : list Action) (flag : string) (ty : type_func)
    (req : bool) : list Action :=
  p ++ [ {| option_strings := [flag];
            dest := replace_dash (lstrip_prefix_chars flag);
            class := store; type_ := ty; required := req |} ].

(** What [parser.error] reports; the wording of the messages is not
    needed. *)
Inductive argparse_error :=
| ambiguous_option (option : string) (matches : list string)
| unexpected_option_string (option : string)
| expected_one_argument (action : list string)
| ignored_explicit_argument (action : list string) (arg : string)
| invalid_value (action : list string) (ty : type_func) (value : string)
| arguments_required (names : list (list string))
| unrecognized_arguments (extras : list string).

(** [(action, option_string, explicit_arg)] *)
Inductive option_tuple :=
| Tuple (action : option Action) (option_string : string)
        (explicit_arg : option string).

Definition tuple_option_string (t : option_tuple) : string :=
  match t with Tuple _ o _ => o end.

(** [parser._option_string_actions], in insertion order. *)
Definition option_string_actions (p : list Action) : list (string * Action) :=
  flat_map (fun a => map (fun o => (o, a)) (option_strings a)) p.

Fixpoint lookup_option (m : list (string * Action)) (o : string)
    : option Action :=
  match m with
  | [] => None
  | (o', a) :: m' => if String.eqb o o' then Some a else lookup_option m' o
  end.

(** [s.split('=', 1)] when ['=' in s]. *)
Fixpoint split_eq (s : string) : option (string * string) :=
  match s with
  | EmptyString => None
  | String c s' =>
      if Ascii.eqb c "=" then Some (EmptyString, s')
      else match split_eq s' with
           | Some (l, r) => Some (String c l, r)
           | None => None
           end
  end.

(** [s.startswith(prefix)] *)
Fixpoint startswith (s prefix : string) {struct prefix} : bool :=
  match prefix with
  | EmptyString => true
  | String c prefix' =>
      match s with
      | String d s' => Ascii.eqb c d && startswith s' prefix'
      | EmptyString => false
      end
  end.

Fixpoint contains (c : ascii) (s : string) : bool :=
  match s with
  | EmptyString => false
  | String c' s' => Ascii.eqb c c' || contains c s'
  end.

Section Parsing.

Variable W : World.
Variable p : list Action.

Inductive classified :=
| positional
| optional (t : option_tuple)
| classify_error (e : argparse_error).

Definition _has_negative_number_optionals : bool :=
  existsb (fun a => existsb (negative_number_like W) (option_strings a)) p.

Definition _get_option_tuples (option_string : string)
    : argparse_error + list option_tuple :=
  match option_string with
  | String c0 (String c1 tail) =>
      if prefix_chars c0 && prefix_chars c1 then
        let '(option_prefix, explicit_arg) :=
          match split_eq option_string with
          | Some (l, r) => (l, Some r)
          | None => (option_string, None)
          end in
        inr (flat_map (fun '(o, a) =>
               if startswith o option_prefix
               then [Tuple (Some a) o explicit_arg] else [])
             (option_string_actions p))
      else if prefix_chars c0 && negb (prefix_chars c1) then
        let short_option_prefix := String c0 (String c1 EmptyString) in
        let short_explicit_arg := tail in
        inr (flat_map (fun '(o, a) =>
               if String.eqb o short_option_prefix
               then [Tuple (Some a) o (Some short_explicit_arg)]
               else if startswith o option_string
               then [Tuple (Some a) o None] else [])
             (option_string_actions p))
      else inl (unexpected_option_string option_string)
  | _ => inl (unexpected_option_string option_string)
  end.

Definition _parse_optional (arg_string : string) : classified :=
  match arg_string with
  | EmptyString => positional
  | String c0 _ =>
      if negb (prefix_chars c0) then positional else
      match lookup_option (option_string_actions p) arg_string with
      | Some a => optional (Tuple (Some a) arg_string None)
      | None =>
          if (String.length arg_string =? 1)%nat then positional else
          let before_eq :=
            match split_eq arg_string with
            | Some (option_string, explicit_arg) =>
                match lookup_option (option_string_actions p) option_string with
                | Some a => Some (Tuple (Some a) option_string (Some explicit_arg))
                | None => None
                end
            | None => None
            end in
          match before_eq with
          | Some t => optional t
          | None =>
              match _get_option_tuples arg_string with
              | inl e => classify_error e
              | inr ((_ :: _ :: _) as option_tuples) =>
                  classify_error
                    (ambiguous_option arg_string
                       (map tuple_option_string option_tuples))
              | inr [t] => optional t
              | inr [] =>
                  if negative_number_like W arg_string
                     && negb _has_negative_number_optionals
                  then positional
                  else if contains " " arg_string then positional
                  else optional (Tuple None arg_string None)
              end
          end
      end
  end.

(** The letters of [arg_strings_pattern]; an ['O'] keeps its option
    tuple, as [option_string_indices] does. *)
Inductive pattern :=
| A
| O (t : option_tuple)
| Dash.

Fixpoint arg_strings_pattern (arg_strings : list string)
    : argparse_error + list pattern :=
  match arg_strings with
  | [] => inr []
  | arg_string :: rest =>
      if String.eqb arg_string "--" then inr (Dash :: map (fun _ => A) rest)
      else
        match _parse_optional arg_string with
        | classify_error e => inl e
        | positional =>
            match arg_strings_pattern rest with
            | inr ps => inr (A :: ps)
            | inl e => inl e
            end
        | optional t =>
            match arg_strings_pattern rest with
            | inr ps => inr (O t :: ps)
            | inl e => inl e
            end
        end
  end.

(** [_get_value]: the [type] conversion of one argument string. *)
Definition _get_value (action : Action) (arg_string : string)
    : argparse_error + pyobj :=
  match type_ action with
  | str => inr (PyStr arg_string)
  | int =>
      match py_int W arg_string with
      | Some z => inr (PyInt z)
      | None => inl (invalid_value (option_strings action) int arg_string)
      end
  end.

(** [list.remove('--')], ignoring the [ValueError] of a missing item. *)
Fixpoint remove_first_dashes (arg_strings : list string) : list string :=
  match arg_strings with
  | [] => []
  | s :: rest =>
      if String.eqb s "--" then rest else s :: remove_first_dashes rest
  end.

Fixpoint get_value_each (action : Action) (arg_strings : list string)
    : argparse_error + list pyobj :=
  match arg_strings with
  | [] => inr []
  | s :: rest =>
      match _get_value action s with
      | inl e => inl e
      | inr v =>
          match get_value_each action rest with
          | inl e => inl e
          | inr vs => inr (v :: vs)
          end
      end
  end.

(** [_get_values] for [nargs=None] and [nargs=0]: the first ['--'] is
    dropped, one remaining string is converted, any other number of
    strings gives the list of the converted strings. *)
Definition _get_values (action : Action) (arg_strings : list string)
    : argparse_error + pyobj :=
  let arg_strings := remove_first_dashes arg_strings in
  match class action, arg_strings with
  | store, [arg_string] => _get_value action arg_string
  | _, _ =>
      match get_value_each action arg_strings with
      | inl e => inl e
      | inr vs => inr (PyList vs)
      end
  end.

Record parse_state := {
  namespace : gmap string pyobj;
  seen_actions : gset string;   (* the actions seen, by [dest] *)
  extras : list string
}.

(** How a stretch of parsing ends: it goes on, the help action printed
    the help and called [parser.exit()], or an [ArgumentError] arose. *)
Inductive step (S : Type) :=
| Continue (s : S)
| HelpExit
| Error (e : argparse_error).
Arguments Continue {S} s.
Arguments HelpExit {S}.
Arguments Error {S} e.

Definition take_action (st : parse_state)
    (t : Action * list string * string) : step parse_state :=
  let '(action, argument_strings, _) := t in
  let seen := {[ dest action ]} ∪ seen_actions st in
  match _get_values action argument_strings with
  | inl e => Error e
  | inr argument_values =>
      match class action with
      | store =>
          Continue {| namespace := <[ dest action := argument_values ]> (namespace st);
                      seen_actions := seen;
                      extras := extras st |}
      | help => HelpExit
      end
  end.

Fixpoint take_actions (action_tuples : list (Action * list string * string))
    (st : parse_state) : step parse_state :=
  match action_tuples with
  | [] => Continue st
  | t :: rest =>
      match take_action st t with
      | Continue st' => take_actions rest st'
      | HelpExit => HelpExit
      | Error e => Error e
      end
  end.

(** [_match_argument(action, 'A')]: the number of strings the action
    takes when one is on offer. *)
Definition arg_count_of_one (action : Action) : nat :=
  match class action with
  | store => 1
  | help => 0
  end.

(** The loop of [consume_optional] while there is an explicit argument.
    It returns the action tuples gathered so far and, when the explicit
    argument has been used up by single-dash flags, the action and option
    string that are left to be matched against the following strings. *)
Fixpoint explicit_loop (action : Action) (option_string : string)
    (explicit_arg : string) (action_tuples : list (Action * list string * string))
    : argparse_error
      + (list (Action * list string * string) * option (Action * string)) :=
  let arg_count := arg_count_of_one action in
  let single_dash :=
    match option_string with
    | String _ (String c1 _) => negb (prefix_chars c1)
    | _ => false
    end in
  match explicit_arg with
  | String c new_explicit_arg =>
      if (arg_count =? 0)%nat && single_dash then
        let action_tuples := (action_tuples ++ [(action, [], option_string)])%list in
        let option_string' :=
          match option_string with
          | String char _ => String char (String c EmptyString)
          | EmptyString => String c EmptyString
          end in
        match lookup_option (option_string_actions p) option_string' with
        | Some action' =>
            match new_explicit_arg with
            | EmptyString => inr (action_tuples, Some (action', option_string'))
            | _ => explicit_loop action' option_string' new_explicit_arg
                     action_tuples
            end
        | None =>
            inl (ignored_explicit_argument (option_strings action) explicit_arg)
        end
      else if (arg_count =? 1)%nat then
        inr ((action_tuples ++ [(action, [explicit_arg], option_string)])%list, None)
      else inl (ignored_explicit_argument (option_strings action) explicit_arg)
  | EmptyString =>
      if (arg_count =? 1)%nat then
        inr ((action_tuples ++ [(action, [explicit_arg], option_string)])%list, None)
      else inl (ignored_explicit_argument (option_strings action) explicit_arg)
  end.

Definition add_extra (s : string) (st : parse_state) : parse_state :=
  {| namespace := namespace st;
     seen_actions := seen_actions st;
     extras := (extras st ++ [s])%list |}.

(** The main loop of [_parse_known_args] for a parser without positional
    arguments: strings that are not options go to [extras]; an option is
    consumed with the strings its action takes. *)
Fixpoint consume (items : list (string * pattern)) (st : parse_state)
    : step parse_state :=
  match items with
  | [] => Continue st
  | (s, A) :: rest | (s, Dash) :: rest => consume rest (add_extra s st)
  | (s, O (Tuple None _ _)) :: rest => consume rest (add_extra s st)
  | (s, O (Tuple (Some action) option_string explicit_arg)) :: rest =>
      let matched :=
        match explicit_arg with
        | Some e => explicit_loop action option_string e []
        | None => inr ([], Some (action, option_string))
        end in
      match matched with
      | inl e => Error e
      | inr (action_tuples, None) =>
          match take_actions action_tuples st with
          | Continue st' => consume rest st'
          | HelpExit => HelpExit
          | Error e => Error e
          end
      | inr (action_tuples, Some (action', option_string')) =>
          match class action' with
          | help =>
              match take_actions
                      (action_tuples ++ [(action', [], option_string')])%list st with
              | Continue st' => consume rest st'
              | HelpExit => HelpExit
              | Error e => Error e
              end
          | store =>
              match rest with
              | (v, A) :: rest' =>
                  match take_actions
                          (action_tuples ++ [(action', [v], option_string')])%list
                          st with
                  | Continue st' => consume rest' st'
                  | HelpExit => HelpExit
                  | Error e => Error e
                  end
              | _ => Error (expected_one_argument (option_strings action'))
              end
          end
      end
  end.

(** The defaults [parse_known_args] puts into the fresh namespace. *)
Definition initial_state : parse_state :=
  {| namespace :=
       fold_left (fun ns a =>
                    if String.eqb (dest a) SUPPRESS then ns
                    else <[ dest a := PyNone ]> ns) p ∅;
     seen_actions := ∅;
     extras := [] |}.

Definition required_actions (seen : gset string) : list (list string) :=
  flat_map (fun a =>
              if negb (bool_decide (dest a ∈ seen)) && required a
              then [option_strings a] else []) p.

Inductive parse_result :=
| Parsed (args : gmap string pyobj)
| Help
| Usage (e : argparse_error).

(** [parser.parse_args()] on [sys.argv[1:]]. *)
Definition parse_args (arg_strings : list string) : parse_result :=
  match arg_strings_pattern arg_strings with
  | inl e => Usage e
  | inr pattern =>
      match consume (combine arg_strings pattern) initial_state with
      | Error e => Usage e
      | HelpExit => Help
      | Continue st =>
          match required_actions (seen_actions st) with
          | (_ :: _) as names => Usage (arguments_required names)
          | [] =>
              match extras st with
              | (_ :: _) as argv => Usage (unrecognized_arguments argv)
              | [] => Parsed (namespace st)
              end
          end
      end
  end.

End Parsing.

Arguments Continue {S} s.
Arguments HelpExit {S}.
Arguments Error {S} e.

End Argparse.

(** ** email.mime and email.generator *)

Module Email.

Definition NL : string := String (ascii_of_nat 10) EmptyString.
Definition CR : ascii := ascii_of_nat 13.
Definition LF : ascii := ascii_of_nat 10.
Definition QUOTE : string := String (ascii_of_nat 34) EmptyString.

(** A [MIMEText] object, and a [MIMEMultipart] object whose payload is the
    list of the attached parts. *)
Record text_message := {
  part_headers : list (string * pyobj);
  part_payload : string
}.

Record multipart_message := {
  _headers : list (string * pyobj);
  _payload : list text_message
}.

Definition is_ascii (s : string) : bool :=
  forallb (fun c => (N_of_ascii c <? 128)%N) (list_ascii_of_string s).

(** *** base64mime.body_encode *)

Definition b64_alphabet : list ascii :=
  list_ascii_of_string
    "ABCDEFGHIJKLMNOPQRSTUVWXYZabcdefghijklmnopqrstuvwxyz0123456789+/".

Definition b64_char (n : N) : ascii :=
  nth (N.to_nat n) b64_alphabet "="%char.

Fixpoint b2a_base64 (bytes : list N) : string :=
  match bytes with
  | a :: b :: c :: rest =>
      String (b64_char (a / 4))
        (String (b64_char ((a mod 4) * 16 + b / 16))
           (String (b64_char ((b mod 16) * 4 + c / 64))
              (String (b64_char (c mod 64)) (b2a_base64 rest))))
  | [a; b] =>
      String (b64_char (a / 4))
        (String (b64_char ((a mod 4) * 16 + b / 16))
           (String (b64_char ((b mod 16) * 4)) "="))
  | [a] =>
      String (b64_char (a / 4)) (String (b64_char ((a mod 4) * 16)) "==")
  | [] => EmptyString
  end%N.

(** One encoded line per 57 bytes, each ended by a newline. *)
Fixpoint body_encode_lines (fuel : nat) (bytes : list N) : string :=
  match fuel, bytes with
  | _, [] => EmptyString
  | O, _ => EmptyString
  | S fuel', _ =>
      b2a_base64 (firstn 57 bytes) ++ NL
      ++ body_encode_lines fuel' (skipn 57 bytes)
  end.

Definition body_encode (s : string) : string :=
  let bytes := map N_of_ascii (list_ascii_of_string s) in
  body_encode_lines (List.length bytes) bytes.

(** *** Decoding, as [get_payload(decode=True)] does it on well-formed
    base64 text: line breaks are skipped, four characters give three
    bytes, [=] pads the last group. *)






(** *** Message objects *)

Definition type_name (v : pyobj) : string :=
  match v with
  | PyNone => "NoneType"
  | PyStr _ => "str"
  | PyInt _ => "int"
  | PyList _ => "list"
  end.

(** [MIMEText(_text, _subtype)] with no charset given: [us-ascii] when the
    text encodes to it, [utf-8] otherwise; the payload is the text itself
    under [7bit] and its base64 body encoding under [utf-8]. *)
Definition MIMEText (W : World) (_text : pyobj) (_subtype : string)
    : result text_message :=
  match _text with
  | PyStr s =>
      if is_ascii s then
        Ok {| part_headers :=
                [ ("Content-Type",
                   PyStr ("text/" ++ _subtype ++ "; charset=" ++ QUOTE
                          ++ "us-ascii" ++ QUOTE));
                  ("MIME-Version", PyStr "1.0");
                  ("Content-Transfer-Encoding", PyStr "7bit") ];
              part_payload := s |}
      else
        rbind (encode_utf8 W s) (fun bytes =>
        Ok {| part_headers :=
                [ ("Content-Type",
                   PyStr ("text/" ++ _subtype ++ "; charset=" ++ QUOTE
                          ++ "utf-8" ++ QUOTE));
                  ("MIME-Version", PyStr "1.0");
                  ("Content-Transfer-Encoding", PyStr "base64") ];
              part_payload := body_encode bytes |})
  | _ =>
      Raise (Exception "AttributeError"
               ("'" ++ type_name _text
                ++ "' object has no attribute 'encode'"))
  end.

(** [MIMEMultipart()] *)
Definition MIMEMultipart : multipart_message :=
  {| _headers := [ ("Content-Type", PyStr "multipart/mixed");
                   ("MIME-Version", PyStr "1.0") ];
     _payload := [] |}.

(** [msg[name] = val] under the [compat32] policy: the pair is appended
    as given. *)
Definition __setitem__ (msg : multipart_message) (name : string) (val : pyobj)
    : multipart_message :=
  {| _headers := (_headers msg ++ [(name, val)])%list;
     _payload := _payload msg |}.

Definition attach (msg : multipart_message) (payload : text_message)
    : multipart_message :=
  {| _headers := _headers msg;
     _payload := (_payload msg ++ [payload])%list |}.

Definition lower_char (c : ascii) : ascii :=
  let n := N_of_ascii c in
  if ((65 <=? n) && (n <=? 90))%N then ascii_of_N (n + 32) else c.

Fixpoint lower (s : string) : string :=
  match s with
  | EmptyString => EmptyString
  | String c s' => String (lower_char c) (lower s')
  end.

(** [msg[name]]: the first header of that name, compared without case. *)
Fixpoint get (headers : list (string * pyobj)) (name : string) : option pyobj :=
  match headers with
  | [] => None
  | (k, v) :: rest =>
      if String.eqb (lower k) (lower name) then Some v else get rest name
  end.


(** [msg.get_all(name)] *)
Definition get_all (headers : list (string * pyobj)) (name : string)
    : list pyobj :=
  flat_map (fun '(k, v) =>
              if String.eqb (lower k) (lower name) then [v] else []) headers.

(** *** Generator *)

Fixpoint zeros (n : nat) : string :=
  match n with
  | O => EmptyString
  | S n' => String "0" (zeros n')
  end.

Definition decimal (n : N) : string :=
  DecimalString.NilEmpty.string_of_uint (N.to_uint n).

(** ['%019d' % token] *)
Definition _fmt (token : N) : string :=
  let d := decimal token in
  zeros (19 - String.length d) ++ d.

Fixpoint split_lines_aux (s : string) (line : string) : list string :=
  match s with
  | EmptyString => [line]
  | String c s' =>
      if Ascii.eqb c LF then line :: split_lines_aux s' EmptyString
      else split_lines_aux s' (line ++ String c EmptyString)
  end.

Definition split_lines (s : string) : list string :=
  split_lines_aux s EmptyString.

(** [re.search('^--' + re.escape(b) + '(--)?$', text, re.MULTILINE)] *)
Definition boundary_occurs (b : string) (text : string) : bool :=
  existsb (fun line =>
             String.eqb line ("--" ++ b) || String.eqb line ("--" ++ b ++ "--"))
          (split_lines text).

(** The search loop of [_make_boundary]; [fuel] is one more than the number
    of lines of [text], which bounds the candidates that can occur in it. *)
Fixpoint free_boundary (fuel : nat) (boundary b : string) (counter : N)
    (text : string) : string :=
  if negb (boundary_occurs b text) then b
  else
    match fuel with
    | O => b
    | S fuel' =>
        free_boundary fuel' boundary (boundary ++ "." ++ decimal counter)
          (counter + 1)%N text
    end.

Definition _make_boundary (W : World) (text : string) : string :=
  let token := randrange W in
  let boundary := "===============" ++ _fmt token ++ "==" in
  free_boundary (S (List.length (split_lines text))) boundary boundary 0%N text.

(** [msg.set_boundary(boundary)] on a Content-Type that has no parameter
    yet, as [MIMEMultipart()] leaves it. *)
Definition set_boundary (headers : list (string * pyobj)) (boundary : string)
    : list (string * pyobj) :=
  map (fun '(h, v) =>
         if String.eqb (lower h) "content-type" then
           match v with
           | PyStr ctype =>
               (h, PyStr (ctype ++ "; boundary=" ++ QUOTE ++ boundary ++ QUOTE))
           | _ => (h, v)
           end
         else (h, v)) headers.

(** [_write_headers]: every header folded by the policy, then the blank
    line. *)
Fixpoint _write_headers (W : World) (headers : list (string * pyobj))
    : result string :=
  match headers with
  | [] => Ok NL
  | (h, v) :: rest =>
      rbind (policy_fold W h v) (fun folded =>
      rbind (_write_headers W rest) (fun s => Ok (folded ++ s)))
  end.

(** [_write_lines]: the line ends [\r\n], [\r] and [\n] all become [\n]. *)
Fixpoint _write_lines (lines : string) : string :=
  match lines with
  | EmptyString => EmptyString
  | String c rest =>
      if Ascii.eqb c CR then
        match rest with
        | String c' rest' =>
            if Ascii.eqb c' LF then String LF (_write_lines rest')
            else String LF (_write_lines rest)
        | EmptyString => String LF EmptyString
        end
      else String c (_write_lines rest)
  end.

(** [flatten] of a text part: the body is written first, then the
    headers in front of it. *)
Definition flatten_text (W : World) (part : text_message) : result string :=
  let body := _write_lines (part_payload part) in
  rbind (_write_headers W (part_headers part)) (fun h => Ok (h ++ body)).

Fixpoint flatten_parts (W : World) (parts : list text_message)
    : result (list string) :=
  match parts with
  | [] => Ok []
  | part :: rest =>
      rbind (flatten_text W part) (fun s =>
      rbind (flatten_parts W rest) (fun ss => Ok (s :: ss)))
  end.

Fixpoint join (sep : string) (l : list string) : string :=
  match l with
  | [] => EmptyString
  | [s] => s
  | s :: rest => s ++ sep ++ join sep rest
  end.

(** [msg.as_string()]: [_handle_multipart] flattens the parts, draws a
    boundary that occurs in none of them and stores it in the Content-Type
    header; then the headers are written, then the delimited parts. *)
Definition as_string (W : World) (msg : multipart_message) : result string :=
  rbind (flatten_parts W (_payload msg)) (fun msgtexts =>
  let boundary := _make_boundary W (join NL msgtexts) in
  let body :=
    "--" ++ boundary ++ NL
    ++ join (NL ++ "--" ++ boundary ++ NL) msgtexts
    ++ NL ++ "--" ++ boundary ++ "--" ++ NL in
  rbind (_write_headers W (set_boundary (_headers msg) boundary)) (fun h =>
  Ok (h ++ body))).

End Email.

(** ** smtplib *)

Module Smtplib.

(** The calls the script makes into [smtplib], with their arguments. *)
Inductive call :=
| SMTP_SSL (host port : pyobj)
| login (user password : pyobj)
| sendmail (from_addr to_addrs : pyobj) (msg : string)
| quit.

End Smtplib.

(** ** The script *)

Module Script.

Import Argparse Email.

(** What ends up on a stream: text the script prints itself, and the
    texts argparse and the interpreter format. *)
Inductive output :=
| Text (s : string)
| format_usage
| error_message (e : argparse_error)
| format_help
| Traceback (e : exn).

(** The observable side of a run so far. *)
Record effects := {
  stdout : list output;
  stderr : list output;
  network : list Smtplib.call
}.

(** Statements: they may raise and they leave effects. *)
Definition Py (A : Type) : Type := effects -> result A * effects.

Definition ret {A} (a : A) : Py A := fun fx => (Ok a, fx).

Definition raise {A} (e : exn) : Py A := fun fx => (Raise e, fx).

Definition bind {A B} (m : Py A) (k : A -> Py B) : Py B :=
  fun fx =>
    match m fx with
    | (Ok a, fx') => k a fx'
    | (Raise e, fx') => (Raise e, fx')
    end.

Notation "x <- m ;; k" := (bind m (fun x => k))
  (at level 100, m at next level, right associativity).
Notation "m ;;; k" := (bind m (fun _ => k))
  (at level 100, right associativity).

Definition lift {A} (r : result A) : Py A := fun fx => (r, fx).

Definition write_stdout (o : output) : Py unit :=
  fun fx => (Ok tt, {| stdout := (stdout fx ++ [o])%list;
                       stderr := stderr fx;
                       network := network fx |}).

Definition write_stderr (o : output) : Py unit :=
  fun fx => (Ok tt, {| stdout := stdout fx;
                       stderr := (stderr fx ++ [o])%list;
                       network := network fx |}).

(** [print(s, file=sys.stderr)] *)
Definition print_stderr (s : string) : Py unit :=
  write_stderr (Text (s ++ NL)).

(** A call into [smtplib]: it is made, then it returns or raises as the
    world decides. *)
Definition smtp (c : Smtplib.call) (outcome : option exn) : Py unit :=
  fun fx =>
    let fx' := {| stdout := stdout fx;
                  stderr := stderr fx;
                  network := (network fx ++ [c])%list |} in
    match outcome with
    | None => (Ok tt, fx')
    | Some e => (Raise e, fx')
    end.

(** [try: body except Exception as e: handler] *)
Definition try_except_Exception {A} (body : Py A) (handler : exn -> Py A)
    : Py A :=
  fun fx =>
    match body fx with
    | (Raise e, fx') =>
        if isinstance_Exception e then handler e fx' else (Raise e, fx')
    | ok => ok
    end.

(** [str(e)] *)
Definition str_exn (e : exn) : string :=
  match e with
  | SystemExit code => EmptyString
  | KeyboardInterrupt => EmptyString
  | Exception _ text => text
  end.

(** Lines 8-16. *)
Definition parser : list Action :=
  let parser := ArgumentParser in
  let parser := add_argument parser "--smtp_server" str true in
  let parser := add_argument parser "--smtp_port" int true in
  let parser := add_argument parser "--smtp_user" str true in
  let parser := add_argument parser "--smtp_password" str true in
  let parser := add_argument parser "--from_email" str true in
  let parser := add_argument parser "--to_email" str true in
  let parser := add_argument parser "--subject" str true in
  let parser := add_argument parser "--body" str true in
  parser.

(** [parser.parse_args()]: the namespace, or argparse's own exit: help goes
    to standard output with status 0, a usage error to standard error with
    status 2. *)
Definition parse_args (W : World) (argv : list string)
    : Py (gmap string pyobj) :=
  match Argparse.parse_args W parser argv with
  | Parsed args => ret args
  | Help => write_stdout format_help ;;; raise (SystemExit 0)
  | Usage e =>
      write_stderr format_usage ;;;
      write_stderr (error_message e) ;;;
      raise (SystemExit 2)
  end.

(** [args.name] *)
Definition getattr (args : gmap string pyobj) (name : string) : Py pyobj :=
  match args !! name with
  | Some v => ret v
  | None =>
      raise (Exception "AttributeError"
               ("'Namespace' object has no attribute '" ++ name ++ "'"))
  end.

(** Lines 20-24. *)
Definition create_message (W : World) (args : gmap string pyobj)
    : Py multipart_message :=
  let msg := MIMEMultipart in
  from_email <- getattr args "from_email" ;;
  let msg := __setitem__ msg "From" from_email in
  to_email <- getattr args "to_email" ;;
  let msg := __setitem__ msg "To" to_email in
  subject <- getattr args "subject" ;;
  let msg := __setitem__ msg "Subject" subject in
  body <- getattr args "body" ;;
  part <- lift (MIMEText W body "plain") ;;
  let msg := attach msg part in
  ret msg.

(** Lines 28-31. *)
Definition send (W : World) (args : gmap string pyobj)
    (msg : multipart_message) : Py unit :=
  smtp_server <- getattr args "smtp_server" ;;
  smtp_port <- getattr args "smtp_port" ;;
  smtp (Smtplib.SMTP_SSL smtp_server smtp_port)
       (SMTP_SSL_raises W smtp_server smtp_port) ;;;
  smtp_user <- getattr args "smtp_user" ;;
  smtp_password <- getattr args "smtp_password" ;;
  smtp (Smtplib.login smtp_user smtp_password)
       (login_raises W smtp_user smtp_password) ;;;
  from_email <- getattr args "from_email" ;;
  to_email <- getattr args "to_email" ;;
  data <- lift (as_string W msg) ;;
  smtp (Smtplib.sendmail from_email to_email data)
       (sendmail_raises W from_email to_email data) ;;;
  smtp Smtplib.quit (quit_raises W).

(** Lines 27-33. *)
Definition send_block (W : World) (args : gmap string pyobj)
    (msg : multipart_message) : Py unit :=
  try_except_Exception (send W args msg)
    (fun e => print_stderr ("Failed to send email: " ++ str_exn e)).

(** The module body. *)
Definition main (W : World) (argv : list string) : Py unit :=
  args <- parse_args W argv ;;
  msg <- create_message W args ;;
  send_block W args msg.

(** What the caller of the process sees. *)
Record outcome := {
  status : Z;
  out : list output;
  err : list output;
  calls : list Smtplib.call
}.

(** The interpreter around the module body: normal completion exits 0,
    [SystemExit] exits with its code, any other exception is reported by a
    traceback on standard error, with status 1 (130 for the interrupt, as
    a shell shows it). *)
Definition finish (r : result unit) (fx : effects) : outcome :=
  match r with
  | Ok _ =>
      {| status := 0; out := stdout fx; err := stderr fx;
         calls := network fx |}
  | Raise (SystemExit code) =>
      {| status := code; out := stdout fx; err := stderr fx;
         calls := network fx |}
  | Raise KeyboardInterrupt =>
      {| status := 130; out := stdout fx;
         err := (stderr fx ++ [Traceback KeyboardInterrupt])%list;
         calls := network fx |}
  | Raise e =>
      {| status := 1; out := stdout fx;
         err := (stderr fx ++ [Traceback e])%list;
         calls := network fx |}
  end.

Definition no_effects : effects :=
  {| stdout := []; stderr := []; network := [] |}.

Definition run (W : World) (argv : list string) : outcome :=
  let '(r, fx) := main W argv no_effects in
  finish r fx.

(** *** Vocabulary of the properties *)

Definition required_flags : list string :=
  [ "--smtp_server"; "--smtp_port"; "--smtp_user"; "--smtp_password";
    "--from_email"; "--to_email"; "--subject"; "--body" ].

(** The part of an argument string in front of its first [=]. *)
Definition before_eq (arg_string : string) : string :=
  match split_eq arg_string with
  | Some (l, _) => l
  | None => arg_string
  end.

(** [arg_string] spells the option [o]: a long option written in full or
    abbreviated, possibly followed by [=value]; a one-letter option
    possibly followed by more characters. *)
Definition spells (o arg_string : string) : bool :=
  if startswith o "--" then
    (2 <? String.length (before_eq arg_string))%nat
    && startswith o (before_eq arg_string)
  else startswith arg_string o.

(** The command line gives the flag in no spelling. *)
Definition omits (flag : string) (argv : list string) : bool :=
  forallb (fun arg_string => negb (spells flag arg_string)) argv.

(** The command line spells [-h] or [--help] somewhere. *)
Definition asks_help (argv : list string) : bool :=
  existsb (fun arg_string =>
             spells "-h" arg_string || spells "--help" arg_string) argv.

(** The attributes the script reads, with the [type] of their flags. *)
Definition fields : list (string * type_func) :=
  [ ("smtp_server", str); ("smtp_port", int); ("smtp_user", str);
    ("smtp_password", str); ("from_email", str); ("to_email", str);
    ("subject", str); ("body", str) ].

(** What a flag of a given [type] leaves in its attribute: the converted
    argument, or the empty list argparse makes of the argument [--]. *)
Definition value_of (ty : type_func) (v : pyobj) : Prop :=
  match ty with
  | str => (exists s, v = PyStr s) \/ v = PyList []
  | int => (exists z, v = PyInt z) \/ v = PyList []
  end.



(** The transport steps of lines 28-31, in their order. *)
Definition steps (smtp_server smtp_port smtp_user smtp_password
    from_email to_email : pyobj) (data : string) : list Smtplib.call :=
  [ Smtplib.SMTP_SSL smtp_server smtp_port;
    Smtplib.login smtp_user smtp_password;
    Smtplib.sendmail from_email to_email data;
    Smtplib.quit ].

(** A step that was reached and raised. *)
Definition failed_step (W : World) (c : Smtplib.call) : Prop :=
  match c with
  | Smtplib.SMTP_SSL host port => SMTP_SSL_raises W host port <> None
  | Smtplib.login user password => login_raises W user password <> None
  | Smtplib.sendmail from_addr to_addrs msg =>
      sendmail_raises W from_addr to_addrs msg <> None
  | Smtplib.quit => False
  end.

(** The wire form of the message built from a namespace. *)
Definition serialized (W : World) (args : gmap string pyobj) : result string :=
  match create_message W args no_effects with
  | (Ok msg, _) => as_string W msg
  | (Raise e, _) => Raise e
  end.

(** The diagnostic of line 33 for an exception. *)
Definition diagnostic (e : exn) : output :=
  Text ("Failed to send email: " ++ str_exn e ++ NL).

(** Statements that leave the effects as they are, and statements that
    leave the two streams as they are. *)
Definition silent {A} (m : Py A) : Prop :=
  forall fx r fx', m fx = (r, fx') -> fx' = fx.

Definition quiet {A} (m : Py A) : Prop :=
  forall fx r fx', m fx = (r, fx') ->
    stdout fx' = stdout fx /\ stderr fx' = stderr fx.

(** The effects after some more calls into [smtplib]. *)
Definition called (fx : effects) (cs : list Smtplib.call) : effects :=
  {| stdout := stdout fx; stderr := stderr fx;
     network := (network fx ++ cs)%list |}.

(** An action tuple that runs the help action. *)
Definition runs_help (t : Action * list string * string) : Prop :=
  class (fst (fst t)) = help.

End Script.

(** ** Command lines and delimiters: the vocabulary of the further
    properties *)

Module CommandLine.

Import Argparse Email Script.

(** The strings [p] with [s.startswith(p)]. *)
Fixpoint prefixes (s : string) : list string :=
  match s with
  | EmptyString => [EmptyString]
  | String c s' => EmptyString :: map (String c) (prefixes s')
  end.

(** The option strings of the script's parser that start with [s]. *)
Definition matches (s : string) : list string :=
  List.filter (fun o => startswith o s) (map fst (option_string_actions parser)).

(** [s] is the flag written in full, or an abbreviation of it that fits no
    other option of the parser. *)
Definition abbreviates (s flag : string) : bool :=
  startswith flag s
  && forallb (fun o => String.eqb o flag) (matches s).

(** An argument string whose option part abbreviates more than one
    option. *)
Definition ambiguous (arg_string : string) : bool :=
  startswith arg_string "--" && negb (String.eqb arg_string "--")
  && (1 <? List.length (matches (before_eq arg_string)))%nat.

(** One flag with its value on the command line: the value is the next
    argument string ([--flag value]) or stands in the flag's own argument
    string ([--flag=value]). *)
Inductive assignment :=
| Separate (option_string value : string)
| Joined (option_string value : string).

Definition words (a : assignment) : list string :=
  match a with
  | Separate o v => [o; v]
  | Joined o v => [o ++ "=" ++ v]
  end.

Definition command_line (l : list assignment) : list string :=
  flat_map words l.

(** The attribute of the namespace a flag is stored in. *)
Definition attribute (flag : string) : string :=
  replace_dash (lstrip_prefix_chars flag).

(** The value the parser makes of the argument of a flag. *)
Definition converted (W : World) (flag value : string) : option pyobj :=
  match lookup_option (option_string_actions parser) flag with
  | Some action =>
      match _get_value W action value with
      | inr v => Some v
      | inl _ => None
      end
  | None => None
  end.

(** An assignment the parser takes as giving [flag] the string [s]: the
    option string abbreviates the flag; a value in an argument string of its
    own does not start with [-], a value after [=] is not [--]. *)
Definition assigns (a : assignment) (flag s : string) : Prop :=
  In flag required_flags
  /\ match a with
     | Separate o v => abbreviates o flag = true /\ startswith v "-" = false /\ v = s
     | Joined o v => abbreviates o flag = true /\ v <> "--" /\ v = s
     end.

(** The two ways argparse ends a run by itself. *)
Definition usage_exit (e : argparse_error) : outcome :=
  {| status := 2; out := []; err := [format_usage; error_message e];
     calls := [] |}.

Definition help_exit : outcome :=
  {| status := 0; out := [format_help]; err := []; calls := [] |}.

(** An assignment the parser takes as giving [flag] the value [v]: the
    option string abbreviates the flag; a value in an argument string of
    its own does not start with [-], a value after [=] is not [--]; and the
    string converts to [v]. *)
Definition gives (W : World) (a : assignment) (flag : string) (v : pyobj)
    : Prop :=
  In flag required_flags
  /\ match a with
     | Separate o s =>
         abbreviates o flag = true /\ startswith s "-" = false
         /\ converted W flag s = Some v
     | Joined o s =>
         abbreviates o flag = true /\ s <> "--"
         /\ converted W flag s = Some v
     end.

(** The parse state after a value has been stored for a flag. *)
Definition stored (st : parse_state) (fv : string * pyobj) : parse_state :=
  {| namespace := <[ attribute (fst fv) := snd fv ]> (namespace st);
     seen_actions := {[ attribute (fst fv) ]} ∪ seen_actions st;
     extras := extras st |}.

(** The value given last to a flag. *)
Fixpoint last_given (fvs : list (string * pyobj)) (flag : string)
    : option pyobj :=
  match fvs with
  | [] => None
  | (f, v) :: rest =>
      match last_given rest flag with
      | Some v' => Some v'
      | None => if String.eqb f flag then Some v else None
      end
  end.

(** The required flags that are given no value, in the order of their
    declaration. *)
Definition missing (fvs : list (string * pyobj)) : list string :=
  List.filter (fun flag => match last_given fvs flag with
                           | Some _ => false
                           | None => true
                           end) required_flags.

(** A word that starts with [-] and that the parser does not take for a
    value: it is not the single [-], does not look like a negative number
    and has no space. *)
Definition option_like (W : World) (s : string) : bool :=
  startswith s "-" && negb (String.eqb s "-")
  && negb (negative_number_like W s) && negb (contains " " s).

(** The run ends inside [parse_args]: with the usage error or with the
    help, before anything else is done. *)
Definition ends_in_parse_args (W : World) (argv : list string) : Prop :=
  (exists e, run W argv = usage_exit e) \/ run W argv = help_exit.

(** A string of the command line: an argument string, or what follows
    the first [=] of one. *)
Definition on_command_line (argv : list string) (s : string) : Prop :=
  In s argv
  \/ exists arg_string option_string,
       In arg_string argv /\ split_eq arg_string = Some (option_string, s).

(** [line] is a delimiter line of the boundary [b]: [--b] or [--b--]. *)
Definition delimits (b line : string) : bool :=
  String.eqb line ("--" ++ b) || String.eqb line ("--" ++ b ++ "--").

(** [b] is a candidate the search loop of [_make_boundary] has come to
    when its counter stands at [counter]: the boundary itself, or the
    boundary with an earlier counter after it. *)
Definition candidate_before (boundary b : string) (counter : N) : Prop :=
  b = boundary
  \/ exists j, (j < counter)%N /\ b = boundary ++ "." ++ decimal j.

End CommandLine.

(** ** Worlds and command lines for the examples *)

Module Examples.

Import Argparse Email Script.

Definition is_digit (c : ascii) : bool :=
  let n := N_of_ascii c in ((48 <=? n) && (n <=? 57))%N.

(** [int] on plain decimal literals with an optional sign. *)
Definition ascii_int (s : string) : option Z :=
  match s with
  | String "+" s' => option_map Z.of_uint (NilZero.uint_of_string s')
  | String "-" s' =>
      option_map (fun u => (- Z.of_uint u)%Z) (NilZero.uint_of_string s')
  | _ => option_map Z.of_uint (NilZero.uint_of_string s)
  end.

Fixpoint all_digits (s : string) : bool :=
  match s with
  | EmptyString => true
  | String c s' => is_digit c && all_digits s'
  end.

Fixpoint digits_then_fraction (s : string) : bool :=
  match s with
  | EmptyString => false
  | String c s' =>
      if Ascii.eqb c "." then negb (String.eqb s' EmptyString) && all_digits s'
      else is_digit c && digits_then_fraction s'
  end.

(** The negative-number pattern on ASCII digits. *)
Definition ascii_negative_number (s : string) : bool :=
  match s with
  | String c s' =>
      Ascii.eqb c "-"
      && ((negb (String.eqb s' EmptyString) && all_digits s')
          || digits_then_fraction s')
  | EmptyString => false
  end.

(** The folding of the [compat32] policy on a short ASCII value without
    line breaks: the header line as it stands. *)
Definition plain_fold (name : string) (value : pyobj) : result string :=
  match value with
  | PyStr s => Ok (name ++ ": " ++ s ++ NL)
  | _ =>
      Raise (Exception "AttributeError"
               ("'" ++ type_name value ++ "' object has no attribute 'encode'"))
  end.

(** A world given by the boundary token and by what each of the four
    [smtplib] calls does. *)
Definition peer (token : N) (connect auth send bye : option exn) : World :=
  {| py_int := ascii_int;
     negative_number_like := ascii_negative_number;
     policy_fold := plain_fold;
     encode_utf8 := fun s => Ok s;
     randrange := token;
     SMTP_SSL_raises := fun _ _ => connect;
     login_raises := fun _ _ => auth;
     sendmail_raises := fun _ _ _ => send;
     quit_raises := bye |}.

(** The scenario of the specification. *)
Definition argv_example : list string :=
  [ "--smtp_server"; "mail.example.com"; "--smtp_port"; "465";
    "--smtp_user"; "a@example.com"; "--smtp_password"; "secret";
    "--from_email"; "a@example.com"; "--to_email"; "b@example.com";
    "--subject"; "Hi"; "--body"; "Hello" ].

Definition args_example : gmap string pyobj :=
  list_to_map
    [ ("smtp_server", PyStr "mail.example.com"); ("smtp_port", PyInt 465);
      ("smtp_user", PyStr "a@example.com"); ("smtp_password", PyStr "secret");
      ("from_email", PyStr "a@example.com"); ("to_email", PyStr "b@example.com");
      ("subject", PyStr "Hi"); ("body", PyStr "Hello") ].

(** Exceptions of [smtplib]: a rejected login, a peer that hangs up. *)
Definition auth_rejected : exn :=
  Exception "SMTPAuthenticationError" "(535, b'5.7.8 Authentication failed')".


Definition disconnected : exn :=
  Exception "SMTPServerDisconnected" "Connection unexpectedly closed".

(** The message the script builds in that scenario. *)
Definition msg_example : multipart_message :=
  {| _headers := [ ("Content-Type", PyStr "multipart/mixed");
                   ("MIME-Version", PyStr "1.0");
                   ("From", PyStr "a@example.com");
                   ("To", PyStr "b@example.com");
                   ("Subject", PyStr "Hi") ];
     _payload :=
       [ {| part_headers :=
              [ ("Content-Type",
                 PyStr ("text/plain; charset=" ++ QUOTE ++ "us-ascii" ++ QUOTE));
                ("MIME-Version", PyStr "1.0");
                ("Content-Transfer-Encoding", PyStr "7bit") ];
            part_payload := "Hello" |} ] |}.

(** The scenario with the body given as [--body=--]. *)
Definition argv_list_body : list string :=
  [ "--smtp_server"; "mail.example.com"; "--smtp_port"; "465";
    "--smtp_user"; "a@example.com"; "--smtp_password"; "secret";
    "--from_email"; "a@example.com"; "--to_email"; "b@example.com";
    "--subject"; "Hi"; "--body=--" ].

(** The scenario with an empty body. *)
Definition argv_empty_body : list string :=
  [ "--smtp_server"; "mail.example.com"; "--smtp_port"; "465";
    "--smtp_user"; "a@example.com"; "--smtp_password"; "secret";
    "--from_email"; "a@example.com"; "--to_email"; "b@example.com";
    "--subject"; "Hi"; "--body"; EmptyString ].

End Examples.

(** * Properties *)

Import Argparse Email Script Examples.

#[local] Arguments String.append !_ _ / : simpl nomatch.
#[local] Arguments Ascii.eqb !_ !_ / : simpl nomatch.
#[local] Arguments take_action : simpl never.

Lemma osa_parser :
  option_string_actions parser =
  [ ("-h", {| option_strings := ["-h"; "--help"]; dest := SUPPRESS; class := help; type_ := str; required := false |});
    ("--help", {| option_strings := ["-h"; "--help"]; dest := SUPPRESS; class := help; type_ := str; required := false |});
    ("--smtp_server", {| option_strings := ["--smtp_server"]; dest := "smtp_server"; class := store; type_ := str; required := true |});
    ("--smtp_port", {| option_strings := ["--smtp_port"]; dest := "smtp_port"; class := store; type_ := int; required := true |});
    ("--smtp_user", {| option_strings := ["--smtp_user"]; dest := "smtp_user"; class := store; type_ := str; required := true |});
    ("--smtp_password", {| option_strings := ["--smtp_password"]; dest := "smtp_password"; class := store; type_ := str; required := true |});
    ("--from_email", {| option_strings := ["--from_email"]; dest := "from_email"; class := store; type_ := str; required := true |});
    ("--to_email", {| option_strings := ["--to_email"]; dest := "to_email"; class := store; type_ := str; required := true |});
    ("--subject", {| option_strings := ["--subject"]; dest := "subject"; class := store; type_ := str; required := true |});
    ("--body", {| option_strings := ["--body"]; dest := "body"; class := store; type_ := str; required := true |}) ].
Proof. reflexivity. Qed.

Lemma lookup_option_In m o a : lookup_option m o = Some a -> In (o, a) m.
Proof.
  induction m as [|[o' a'] m IH]; simpl; [discriminate|].
  destruct (String.eqb_spec o o') as [->|_].
  - intros [= ->]. now left.
  - intros H. right. now apply IH.
Qed.

Lemma split_eq_app s l r : split_eq s = Some (l, r) -> s = l ++ "=" ++ r.
Proof.
  revert l. induction s as [|c s IH]; simpl; intros l; [discriminate|].
  destruct (Ascii.eqb_spec c "="%char) as [->|_].
  - intros [= <- <-]. reflexivity.
  - destruct (split_eq s) as [[l' r']|]; [|discriminate].
    intros [= <- <-]. simpl. f_equal. now apply IH.
Qed.

Lemma startswith_app l r : startswith (l ++ r) l = true.
Proof.
  induction l as [|c l IH]; simpl; [reflexivity|]. now rewrite Ascii.eqb_refl.
Qed.

Lemma startswith_refl l : startswith l l = true.
Proof.
  induction l as [|c l IH]; simpl; [reflexivity|]. now rewrite Ascii.eqb_refl.
Qed.

Lemma before_eq_split s l r : split_eq s = Some (l, r) -> before_eq s = l.
Proof. unfold before_eq. now intros ->. Qed.

(** Membership in the option table of the script's parser, by cases. *)
Ltac option_cases H :=
  rewrite osa_parser in H; simpl in H;
  repeat (destruct H as [H|H]; [injection H as <- <-|]); [..|contradiction].

Section ArgparseFacts.

Variable W : World.

Lemma get_option_tuples_spells tok t :
  (exists ts, _get_option_tuples parser tok = inr ts /\ In t ts /\ length ts = 1%nat) ->
  exists a os e, t = Tuple (Some a) os e
    /\ In (os, a) (option_string_actions parser) /\ spells os tok = true.
Proof.
  intros (ts & Hts & Hin & Hlen).
  destruct tok as [|c0 [|c1 tail]]; try discriminate.
  unfold _get_option_tuples in Hts.
  remember (option_string_actions parser) as m eqn:Hm.
  destruct (Ascii.eqb_spec c0 "-"%char) as [->|Hc0];
    [|unfold prefix_chars in Hts; destruct (Ascii.eqb_spec c0 "-"%char); [contradiction|discriminate]].
  destruct (Ascii.eqb_spec c1 "-"%char) as [->|Hc1].
  - (* long spelling *)
    change (prefix_chars "-" && prefix_chars "-") with true in Hts.
    cbv iota in Hts.
    assert (Hbe : exists l', before_eq (String "-" (String "-" tail)) = String "-" (String "-" l')).
    { unfold before_eq. simpl. destruct (split_eq tail) as [[l r]|]; eauto. }
    destruct Hbe as [l' Hbe].
    assert (Hts' : exists e,
      ts = flat_map (fun '(o, a) =>
             if startswith o (before_eq (String "-" (String "-" tail)))
             then [Tuple (Some a) o e] else []) m).
    { unfold before_eq.
      destruct (split_eq (String "-" (String "-" tail))) as [[l r]|];
        injection Hts as <-; eauto. }
    destruct Hts' as [e ->]. rewrite Hbe in *.
    destruct l' as [|c2 l'].
    + rewrite Hm, osa_parser in Hlen. vm_compute in Hlen. lia.
    + apply in_flat_map in Hin. destruct Hin as ([o a] & Hoa & Hin).
      destruct (startswith o (String "-" (String "-" (String c2 l')))) eqn:Hp;
        [|contradiction].
      destruct Hin as [<-|[]].
      exists a, o, e. split; [reflexivity|]. split; [assumption|].
      unfold spells. rewrite Hbe.
      assert (Ho : startswith o "--" = true).
      { destruct o as [|d0 [|d1 o]]; simpl in Hp |- *; try discriminate;
          destruct (Ascii.eqb "-" d0); simpl in Hp |- *; try discriminate.
        destruct (Ascii.eqb "-" d1); simpl in Hp |- *; try discriminate;
          reflexivity. }
      rewrite Ho, Hp. reflexivity.
  - (* one-letter spelling *)
    assert (Hn : prefix_chars c1 = false).
    { unfold prefix_chars. now destruct (Ascii.eqb_spec c1 "-"%char). }
    change (prefix_chars "-") with true in Hts. rewrite Hn in Hts.
    cbn [andb negb] in Hts.
    injection Hts as <-.
    apply in_flat_map in Hin. destruct Hin as ([o a] & Hoa & Hin).
    pose proof Hoa as Hoa'. rewrite Hm in Hoa.
    option_cases Hoa; simpl in Hin;
      try (destruct (Ascii.eqb "-" c1);
           (destruct (Ascii.eqb_spec c1 "-"%char); [congruence|]);
           simpl in Hin; contradiction).
    rewrite (Ascii.eqb_sym "h" c1) in Hin.
    destruct (Ascii.eqb_spec c1 "h"%char) as [->|_].
    + simpl in Hin.
      destruct Hin as [<-|[]].
      eexists _, _, _. split; [reflexivity|]. split; [exact Hoa'|].
      reflexivity.
    + simpl in Hin. contradiction.
Qed.

Lemma parse_optional_spells tok a os e :
  _parse_optional W parser tok = optional (Tuple (Some a) os e) ->
  In (os, a) (option_string_actions parser) /\ spells os tok = true.
Proof.
  unfold _parse_optional. destruct tok as [|c0 tail]; [discriminate|].
  destruct (negb (prefix_chars c0)); [discriminate|].
  set (tok := String c0 tail).
  destruct (lookup_option (option_string_actions parser) tok) as [a0|] eqn:Hl.
  - (* written in full *)
    intros [= -> <- <-]. apply lookup_option_In in Hl. split; [assumption|].
    subst tok. option_cases Hl; reflexivity.
  - destruct (String.length tok =? 1)%nat; [discriminate|].
    destruct (split_eq tok) as [[l r]|] eqn:Hs.
    + destruct (lookup_option (option_string_actions parser) l) as [a1|] eqn:Hl'.
      * (* written in full, with =value *)
        intros [= -> <- <-]. apply lookup_option_In in Hl'.
        split; [assumption|].
        unfold spells. rewrite (before_eq_split _ _ _ Hs).
        apply split_eq_app in Hs. rewrite Hs.
        option_cases Hl'; reflexivity.
      * destruct (_get_option_tuples parser tok) as [err|[|t [|t' ts]]] eqn:Ht;
          try discriminate.
        -- destruct (_ && _); [discriminate|].
           destruct (contains _ _); [discriminate|]. discriminate.
        -- intros [= ->].
           destruct (get_option_tuples_spells tok (Tuple (Some a) os e))
             as (a' & os' & e' & [= -> -> ->] & Hin & Hsp).
           { exists [Tuple (Some a) os e]. repeat split; [assumption|now left]. }
           now split.
    + destruct (_get_option_tuples parser tok) as [err|[|t [|t' ts]]] eqn:Ht;
        try discriminate.
      * destruct (_ && _); [discriminate|].
        destruct (contains _ _); [discriminate|]. discriminate.
      * intros [= ->].
        destruct (get_option_tuples_spells tok (Tuple (Some a) os e))
          as (a' & os' & e' & [= -> -> ->] & Hin & Hsp).
        { exists [Tuple (Some a) os e]. repeat split; [assumption|now left]. }
        now split.
Qed.

Lemma no_O_after_dashes (l l' : list string) tok t :
  ~ In (tok, O t) (combine l (map (fun _ => A) l')).
Proof.
  revert l'. induction l as [|x l IH]; intros [|y l']; simpl; try tauto.
  intros [[=]|Hin]. eapply IH, Hin.
Qed.

(** An ['O'] of the pattern belongs to an argument string that
    [_parse_optional] read as that option. *)
Lemma arg_strings_pattern_O argv : forall pats tok t,
  arg_strings_pattern W parser argv = inr pats ->
  In (tok, O t) (combine argv pats) ->
  In tok argv /\ _parse_optional W parser tok = optional t.
Proof.
  induction argv as [|s argv IH]; intros pats tok t; simpl.
  - intros [= <-] [].
  - destruct (String.eqb s "--").
    + intros [= <-]. simpl. intros [[=]|Hin].
      now apply no_O_after_dashes in Hin.
    + destruct (_parse_optional W parser s) as [|t0|err] eqn:Hp; [| |discriminate];
        (destruct (arg_strings_pattern W parser argv) as [err|ps] eqn:Hps;
         [discriminate|]); intros [= <-]; simpl;
        (intros [Heq|Hin];
         [| destruct (IH ps tok t eq_refl Hin); split; [now right|assumption]]).
      * discriminate.
      * injection Heq as -> ->. split; [now left|assumption].
Qed.

End ArgparseFacts.

(** *** The main loop *)

Section ConsumeFacts.

Variable W : World.
Variable p : list Action.

Lemma take_actions_app l1 l2 st :
  take_actions W (l1 ++ l2) st =
  match take_actions W l1 st with
  | Continue st' => take_actions W l2 st'
  | HelpExit => HelpExit
  | Error e => Error e
  end.
Proof.
  revert st. induction l1 as [|t l1 IH]; intros st; simpl; [reflexivity|].
  destruct (take_action W st t); auto.
Qed.

Lemma take_action_help st a strs os :
  class a = help -> forall st', take_action W st (a, strs, os) <> Continue st'.
Proof.
  intros Hc st'. unfold take_action.
  destruct (_get_values W a strs); [discriminate|]. rewrite Hc. discriminate.
Qed.

Lemma take_action_store st a strs os :
  class a = store -> take_action W st (a, strs, os) <> HelpExit.
Proof.
  intros Hc. unfold take_action.
  destruct (_get_values W a strs); [discriminate|]. rewrite Hc. discriminate.
Qed.

Lemma take_actions_help l st :
  Exists runs_help l -> forall st', take_actions W l st <> Continue st'.
Proof.
  intros H. revert st. induction H as [[[a strs] os] l Hh|t l _ IH]; intros st st'; simpl.
  - destruct (take_action W st (a, strs, os)) as [st1| |] eqn:Ht;
      try discriminate.
    now apply take_action_help in Ht.
  - destruct (take_action W st t); try discriminate. apply IH.
Qed.

Lemma explicit_loop_store a os e acc :
  class a = store ->
  explicit_loop p a os e acc = inr ((acc ++ [(a, [e], os)])%list, None).
Proof.
  intros Hc. destruct e; simpl; unfold arg_count_of_one; rewrite Hc; reflexivity.
Qed.

Lemma explicit_loop_help e : forall a os acc tuples cont,
  class a = help \/ Exists runs_help acc ->
  explicit_loop p a os e acc = inr (tuples, cont) ->
  Exists runs_help tuples.
Proof.
  induction e as [|c r IH]; intros a os acc tuples cont Hh; simpl.
  - destruct (arg_count_of_one a =? 1)%nat eqn:Hn; [|discriminate].
    intros [= <- _]. apply Exists_app. destruct Hh as [Hc|Hacc]; [|now left].
    unfold arg_count_of_one in Hn. now rewrite Hc in Hn.
  - assert (Hacc : Exists runs_help (acc ++ [(a, [], os)])%list
                   \/ (class a = store /\ Exists runs_help acc)).
    { destruct (class a) eqn:Hc.
      - right. split; [reflexivity|]. destruct Hh as [?|?]; [discriminate|assumption].
      - left. apply Exists_app. right. now constructor. }
    destruct ((arg_count_of_one a =? 0)%nat && _) eqn:Hcl.
    + destruct (lookup_option (option_string_actions p) _) as [a'|]; [|discriminate].
      assert (Hacc' : Exists runs_help (acc ++ [(a, [], os)])%list).
      { destruct Hacc as [?|[Hc _]]; [assumption|].
        unfold arg_count_of_one in Hcl. now rewrite Hc in Hcl. }
      destruct r as [|c' r'].
      * now intros [= <- _].
      * intros Heq. eapply IH; [|exact Heq]. now right.
    + destruct (arg_count_of_one a =? 1)%nat eqn:Hn; [|discriminate].
      intros [= <- _]. apply Exists_app.
      destruct Hh as [Hc|?]; [|now left].
      unfold arg_count_of_one in Hn. now rewrite Hc in Hn.
Qed.

(** What the loop does at an option whose action stores a value. *)
Lemma consume_store s a os e rest st :
  class a = store ->
  consume W p ((s, O (Tuple (Some a) os e)) :: rest) st =
  match e with
  | Some v =>
      match take_action W st (a, [v], os) with
      | Continue st' => consume W p rest st'
      | HelpExit => HelpExit
      | Error err => Error err
      end
  | None =>
      match rest with
      | (v, A) :: rest' =>
          match take_action W st (a, [v], os) with
          | Continue st' => consume W p rest' st'
          | HelpExit => HelpExit
          | Error err => Error err
          end
      | _ => Error (expected_one_argument (option_strings a))
      end
  end.
Proof.
  intros Hc. simpl. destruct e as [v|].
  - rewrite (explicit_loop_store a os v [] Hc). simpl.
    now destruct (take_action W st (a, [v], os)).
  - rewrite Hc. destruct rest as [|[v [| |]] rest']; try reflexivity.
    simpl. now destruct (take_action W st (a, [v], os)).
Qed.

(** At an option whose action is the help action the loop does not go on. *)
Lemma consume_help s a os e rest st :
  class a = help ->
  forall st', consume W p ((s, O (Tuple (Some a) os e)) :: rest) st <> Continue st'.
Proof.
  intros Hc st'. simpl. destruct e as [x|].
  - destruct (explicit_loop p a os x []) as [err|[tuples cont]] eqn:Hl;
      [discriminate|].
    assert (Hh : Exists runs_help tuples)
      by (eapply explicit_loop_help; [left; exact Hc|exact Hl]).
    destruct cont as [[a' os']|].
    + destruct (class a').
      * destruct rest as [|[v [| |]] rest']; try discriminate.
        rewrite take_actions_app.
        destruct (take_actions W tuples st) as [st1| |] eqn:Ht;
          try discriminate.
        now apply take_actions_help in Ht.
      * rewrite take_actions_app.
        destruct (take_actions W tuples st) as [st1| |] eqn:Ht;
          try discriminate.
        now apply take_actions_help in Ht.
    + destruct (take_actions W tuples st) as [st1| |] eqn:Ht;
        try discriminate.
      now apply take_actions_help in Ht.
  - rewrite Hc. simpl.
    destruct (take_action W st (a, [], os)) as [st1| |] eqn:Ht;
      try discriminate.
    now apply take_action_help in Ht.
Qed.

(** An invariant of the parse state that extras do not disturb and that
    every stored option keeps is kept by the whole loop. *)
Lemma consume_invariant (I : parse_state -> Prop) (R : Action -> Prop) :
  (forall st s, I st -> I (add_extra s st)) ->
  (forall st a v os st',
     R a -> class a = store -> I st ->
     take_action W st (a, [v], os) = Continue st' -> I st') ->
  forall n items,
    (length items <= n)%nat ->
    (forall tok a os e, In (tok, O (Tuple (Some a) os e)) items -> R a) ->
    forall st st', I st -> consume W p items st = Continue st' -> I st'.
Proof.
  intros Hextra Htake. induction n as [|n IH]; intros items Hlen HR st st' HI.
  - destruct items; [|simpl in Hlen; lia]. now intros [= <-].
  - destruct items as [|[s pat] rest]; [now intros [= <-]|].
    simpl in Hlen.
    assert (HRrest : forall tok a os e,
              In (tok, O (Tuple (Some a) os e)) rest -> R a)
      by (intros; eapply HR; right; eassumption).
    destruct pat as [|[[a|] os e]|].
    + simpl. apply IH; [lia|assumption|auto].
    + destruct (class a) eqn:Hc.
      * rewrite consume_store by assumption.
        assert (Ra : R a) by (eapply HR; now left).
        destruct e as [v|].
        -- destruct (take_action W st (a, [v], os)) as [st1| |] eqn:Ht;
             try discriminate.
           apply IH; [lia|assumption|eauto].
        -- destruct rest as [|[v [| |]] rest']; try discriminate.
           destruct (take_action W st (a, [v], os)) as [st1| |] eqn:Ht;
             try discriminate.
           simpl in Hlen. apply IH; [lia| |eauto].
           intros; eapply HRrest; right; eassumption.
      * intros Hcont. now apply consume_help in Hcont.
    + simpl. apply IH; [lia|assumption|auto].
    + simpl. apply IH; [lia|assumption|auto].
Qed.

(** Without an option that runs the help action the loop does not exit
    through it. *)
Lemma consume_no_help_exit :
  forall n items,
    (length items <= n)%nat ->
    (forall tok a os e,
       In (tok, O (Tuple (Some a) os e)) items -> class a = store) ->
    forall st, consume W p items st <> HelpExit.
Proof.
  induction n as [|n IH]; intros items Hlen HR st.
  - destruct items; [discriminate|simpl in Hlen; lia].
  - destruct items as [|[s pat] rest]; [discriminate|].
    simpl in Hlen.
    assert (HRrest : forall tok a os e,
              In (tok, O (Tuple (Some a) os e)) rest -> class a = store)
      by (intros; eapply HR; right; eassumption).
    destruct pat as [|[[a|] os e]|]; try (simpl; apply IH; [lia|assumption]).
    assert (Hc : class a = store) by (eapply HR; now left).
    rewrite consume_store by assumption.
    destruct e as [v|].
    + destruct (take_action W st (a, [v], os)) as [st1| |] eqn:Ht;
        try discriminate; [|now apply take_action_store in Ht].
      apply IH; [lia|assumption].
    + destruct rest as [|[v [| |]] rest']; try discriminate.
      destruct (take_action W st (a, [v], os)) as [st1| |] eqn:Ht;
        try discriminate; [|now apply take_action_store in Ht].
      simpl in Hlen. apply IH; [lia|].
      intros; eapply HRrest; right; eassumption.
Qed.

End ConsumeFacts.

(** *** parse_args of the script's parser *)

Ltac in_list := simpl; repeat (first [left; reflexivity | right]).

Section ParseArgsFacts.

Variable W : World.

Lemma take_action_Continue st a strs os st' :
  take_action W st (a, strs, os) = Continue st' ->
  exists v, _get_values W a strs = inr v /\ class a = store
    /\ st' = {| namespace := <[ dest a := v ]> (namespace st);
                seen_actions := {[ dest a ]} ∪ seen_actions st;
                extras := extras st |}.
Proof.
  unfold take_action. destruct (_get_values W a strs) as [|v]; [discriminate|].
  destruct (class a); [|discriminate]. intros [= <-]. eauto.
Qed.

(** The options in the parsed command line come from the parser's table
    and are spelled by their argument strings. *)
Lemma items_spelled argv pats tok a os e :
  arg_strings_pattern W parser argv = inr pats ->
  In (tok, O (Tuple (Some a) os e)) (combine argv pats) ->
  In tok argv /\ In (os, a) (option_string_actions parser)
  /\ spells os tok = true.
Proof.
  intros Hp Hin. destruct (arg_strings_pattern_O W argv pats tok _ Hp Hin) as [Ht Hc].
  apply parse_optional_spells in Hc. tauto.
Qed.

Lemma parse_args_Parsed argv args :
  Argparse.parse_args W parser argv = Parsed args ->
  exists pats st,
    arg_strings_pattern W parser argv = inr pats
    /\ consume W parser (combine argv pats) (initial_state parser) = Continue st
    /\ required_actions parser (seen_actions st) = []
    /\ extras st = [] /\ args = namespace st.
Proof.
  unfold Argparse.parse_args.
  destruct (arg_strings_pattern W parser argv) as [|pats]; [discriminate|].
  destruct (consume W parser _ _) as [st| |] eqn:Hc; try discriminate.
  destruct (required_actions parser (seen_actions st)) eqn:Hr; [|discriminate].
  destruct (extras st) eqn:He; [|discriminate].
  intros [= <-]. exists pats, st. auto.
Qed.

Lemma required_actions_nil (p : list Action) seen a :
  required_actions p seen = [] -> In a p -> required a = true -> dest a ∈ seen.
Proof.
  unfold required_actions. induction p as [|b p IH]; simpl; [tauto|].
  intros Hnil [->|Hin] Hreq.
  - rewrite Hreq in Hnil. destruct (bool_decide (dest a ∈ seen)) eqn:Hd.
    + now apply bool_decide_eq_true in Hd.
    + discriminate.
  - apply IH; try assumption.
    now destruct (negb (bool_decide (dest b ∈ seen)) && required b).
Qed.

Lemma required_flag_action flag :
  In flag required_flags ->
  exists a, In a parser /\ required a = true
    /\ forall os a', In (os, a') (option_string_actions parser) ->
          dest a' = dest a -> os = flag.
Proof.
  intros Hin. simpl in Hin.
  repeat (destruct Hin as [Hf|Hin];
    [ match type of Hf with
      | ?f = _ =>
          destruct (lookup_option (option_string_actions parser) f) as [a|] eqn:Ha;
            [|discriminate Ha]
      end;
      subst flag; exists a; vm_compute in Ha; injection Ha as <-;
      split; [in_list|]; split; [reflexivity|];
      intros os a' Hoa; option_cases Hoa; simpl; intros Hd;
      first [reflexivity|discriminate Hd] |]).
  contradiction.
Qed.

Lemma field_action d ty :
  In (d, ty) fields ->
  exists a, In a parser /\ required a = true /\ dest a = d.
Proof.
  intros Hin. simpl in Hin.
  repeat (destruct Hin as [Hf|Hin];
    [ match type of Hf with
      | (?f, _) = _ =>
          destruct (lookup_option (option_string_actions parser) ("--" ++ f))
            as [a|] eqn:Ha; [|discriminate Ha]
      end;
      injection Hf as <- <-; exists a; vm_compute in Ha; injection Ha as <-;
      split; [in_list|]; split; reflexivity |]).
  contradiction.
Qed.

Lemma table_fields os a :
  In (os, a) (option_string_actions parser) -> class a = store ->
  In (dest a, type_ a) fields.
Proof. intros H. option_cases H; simpl; intros Hc; try discriminate Hc; in_list. Qed.

Lemma fields_functional d t1 t2 :
  In (d, t1) fields -> In (d, t2) fields -> t1 = t2.
Proof.
  intros H1 H2. simpl in H1, H2.
  repeat (destruct H1 as [[= <- <-]|H1]; [|]); try contradiction;
    repeat (destruct H2 as [[= ?]|H2]; try discriminate; subst; try reflexivity);
    contradiction.
Qed.

Lemma table_help os a :
  In (os, a) (option_string_actions parser) -> class a = help ->
  os = "-h" \/ os = "--help".
Proof. intros H. option_cases H; simpl; intros Hc; try discriminate Hc; auto. Qed.

Lemma get_values_store a x v :
  class a = store -> _get_values W a [x] = inr v -> value_of (type_ a) v.
Proof.
  intros Hc. unfold _get_values. rewrite Hc. simpl.
  destruct (String.eqb x "--"); simpl.
  - intros [= <-]. destruct (type_ a); now right.
  - unfold _get_value. destruct (type_ a).
    + intros [= <-]. left. eauto.
    + destruct (py_int W x); [|discriminate]. intros [= <-]. left. eauto.
Qed.

(** A command line that omits a required flag is never parsed into a
    namespace. *)
Lemma omitted_not_Parsed flag argv args :
  In flag required_flags -> omits flag argv = true ->
  Argparse.parse_args W parser argv <> Parsed args.
Proof.
  intros Hflag Hom Hparsed.
  destruct (required_flag_action flag Hflag) as (a & Ha & Hreq & Huniq).
  destruct (parse_args_Parsed argv args Hparsed)
    as (pats & st & Hpats & Hcons & Hnil & _ & _).
  pose proof (required_actions_nil parser _ a Hnil Ha Hreq) as Hseen.
  revert Hseen.
  apply (consume_invariant W parser
           (fun st => dest a ∉ seen_actions st) (fun a' => dest a' <> dest a))
    with (n := length (combine argv pats)) (items := combine argv pats)
         (st := initial_state parser); try assumption.
  - auto.
  - intros st0 a' v os st' Hne _ HI Ht.
    apply take_action_Continue in Ht. destruct Ht as (v' & _ & _ & ->). simpl.
    intros [Heq%elem_of_singleton|Hin]%elem_of_union; [congruence|contradiction].
  - lia.
  - intros tok a' os e Hin Hd.
    destruct (items_spelled argv pats tok a' os e Hpats Hin) as (Htok & Hoa & Hsp).
    rewrite (Huniq os a' Hoa Hd) in Hsp.
    unfold omits in Hom. rewrite forallb_forall in Hom.
    specialize (Hom tok Htok). now rewrite Hsp in Hom.
  - simpl. apply not_elem_of_empty.
Qed.

(** Only a command line that spells the help option ends in the help. *)
Lemma Help_asked argv :
  Argparse.parse_args W parser argv = Help -> asks_help argv = true.
Proof.
  unfold Argparse.parse_args.
  destruct (arg_strings_pattern W parser argv) as [|pats] eqn:Hpats; [discriminate|].
  destruct (consume W parser _ _) as [st| |] eqn:Hc; try discriminate.
  - destruct (required_actions parser (seen_actions st)); [|discriminate].
    destruct (extras st); discriminate.
  - intros _. destruct (asks_help argv) eqn:Hask; [reflexivity|]. exfalso.
    revert Hc.
    apply (consume_no_help_exit W parser (length (combine argv pats))); [lia|].
    intros tok a os e Hin.
    destruct (items_spelled argv pats tok a os e Hpats Hin) as (Htok & Hoa & Hsp).
    destruct (class a) eqn:Hcl; [reflexivity|]. exfalso.
    assert (Hex : asks_help argv = true).
    { unfold asks_help. apply existsb_exists. exists tok. split; [assumption|].
      destruct (table_help os a Hoa Hcl) as [->| ->]; rewrite Hsp;
        [reflexivity|apply orb_true_r]. }
    congruence.
Qed.

(** After a successful parse every attribute the script reads holds a value
    of its flag's type. *)
Lemma Parsed_fields argv args d ty :
  Argparse.parse_args W parser argv = Parsed args ->
  In (d, ty) fields ->
  exists v, args !! d = Some v /\ value_of ty v.
Proof.
  intros Hparsed Hd.
  destruct (parse_args_Parsed argv args Hparsed)
    as (pats & st & Hpats & Hcons & Hnil & _ & ->).
  destruct (field_action d ty Hd) as (a & Ha & Hreq & Hda).
  pose proof (required_actions_nil parser _ a Hnil Ha Hreq) as Hseen.
  rewrite Hda in Hseen.
  clear Ha Hreq Hda. clear a. revert d ty Hd Hseen.
  apply (consume_invariant W parser
           (fun st => forall d ty, In (d, ty) fields -> d ∈ seen_actions st ->
                        exists v, namespace st !! d = Some v /\ value_of ty v)
           (fun a => exists os, In (os, a) (option_string_actions parser)))
    with (n := length (combine argv pats)) (items := combine argv pats)
         (st := initial_state parser); try assumption.
  - auto.
  - intros st0 a v os st' [os' Hoa] Hcl HI Ht d ty Hd.
    apply take_action_Continue in Ht. destruct Ht as (v' & Hv & _ & ->). simpl.
    destruct (decide (d = dest a)) as [->|Hne].
    + intros _. exists v'. split; [apply lookup_insert_eq|].
      pose proof (table_fields os' a Hoa Hcl) as Hf.
      rewrite (fields_functional _ _ _ Hd Hf).
      eapply get_values_store; eassumption.
    + intros Hin. rewrite lookup_insert_ne by congruence.
      apply HI; [assumption|].
      apply elem_of_union in Hin as [Heq%elem_of_singleton|?];
        [contradiction|assumption].
  - lia.
  - intros tok a os e Hin.
    destruct (items_spelled argv pats tok a os e Hpats Hin) as (_ & Hoa & _).
    eauto.
  - simpl. intros d ty _ Hin. now apply elem_of_empty in Hin.
Qed.

End ParseArgsFacts.

(** ** base64 *)




Lemma list_ind3 {A} (P : list A -> Prop) :
  P [] -> (forall a, P [a]) -> (forall a b, P [a; b]) ->
  (forall a b c l, P l -> P (a :: b :: c :: l)) ->
  forall l, P l.
Proof.
  intros H0 H1 H2 H3. fix IH 1.
  intros [|a [|b [|c l]]]; [exact H0|apply H1|apply H2|apply H3, IH].
Qed.


Section Sextets.
Local Open Scope N_scope.
End Sextets.


Lemma list_ascii_app (s1 s2 : string) :
  list_ascii_of_string (s1 ++ s2)
  = (list_ascii_of_string s1 ++ list_ascii_of_string s2)%list.
Proof. induction s1 as [|c s1 IH]; simpl; [reflexivity|]. now rewrite IH. Qed.







(** ** The script *)

Section ScriptFacts.

Variable W : World.

Lemma silent_ret {A} (a : A) : silent (ret a).
Proof. intros fx r fx'. now intros [= _ <-]. Qed.

Lemma silent_raise {A} e : silent (@raise A e).
Proof. intros fx r fx'. now intros [= _ <-]. Qed.

Lemma silent_lift {A} (x : result A) : silent (lift x).
Proof. intros fx r fx'. now intros [= _ <-]. Qed.

Lemma silent_bind {A B} (m : Py A) (k : A -> Py B) :
  silent m -> (forall a, silent (k a)) -> silent (bind m k).
Proof.
  intros Hm Hk fx r fx'. unfold bind.
  destruct (m fx) as [[a|e] fx1] eqn:E; pose proof (Hm _ _ _ E) as ->.
  - apply Hk.
  - now intros [= _ <-].
Qed.

Lemma silent_getattr args name : silent (getattr args name).
Proof.
  unfold getattr. destruct (args !! name); [apply silent_ret|apply silent_raise].
Qed.

Lemma create_message_silent args : silent (create_message W args).
Proof.
  unfold create_message.
  repeat (apply silent_bind; [first [apply silent_getattr|apply silent_lift]|intros ?]).
  apply silent_ret.
Qed.

Lemma quiet_silent {A} (m : Py A) : silent m -> quiet m.
Proof. intros H fx r fx' E. now rewrite (H _ _ _ E). Qed.

Lemma quiet_bind {A B} (m : Py A) (k : A -> Py B) :
  quiet m -> (forall a, quiet (k a)) -> quiet (bind m k).
Proof.
  intros Hm Hk fx r fx'. unfold bind.
  destruct (m fx) as [[a|e] fx1] eqn:E; destruct (Hm _ _ _ E) as [<- <-].
  - apply Hk.
  - now intros [= _ <-].
Qed.

Lemma quiet_smtp c o : quiet (smtp c o).
Proof. intros fx r fx'. unfold smtp. destruct o; now intros [= _ <-]. Qed.

(** The transport statements write to neither stream. *)
Lemma send_quiet args msg : quiet (send W args msg).
Proof.
  unfold send.
  repeat (apply quiet_bind;
          [first [apply quiet_silent, silent_getattr
                 |apply quiet_silent, silent_lift
                 |apply quiet_smtp]|intros ?]).
  apply quiet_smtp.
Qed.

Lemma run_Help argv :
  Argparse.parse_args W parser argv = Help ->
  run W argv = {| status := 0; out := [format_help]; err := []; calls := [] |}.
Proof. intros H. unfold run, main, bind, parse_args. now rewrite H. Qed.

Lemma run_Usage argv e :
  Argparse.parse_args W parser argv = Usage e ->
  run W argv = {| status := 2; out := [];
                  err := [format_usage; error_message e]; calls := [] |}.
Proof. intros H. unfold run, main, bind, parse_args. now rewrite H. Qed.

Lemma run_created argv args msg :
  Argparse.parse_args W parser argv = Parsed args ->
  create_message W args no_effects = (Ok msg, no_effects) ->
  run W argv = let '(r, fx) := send_block W args msg no_effects in finish r fx.
Proof.
  intros H Hc. unfold run, main, bind, parse_args. rewrite H. simpl.
  now rewrite Hc.
Qed.

Lemma run_not_created argv args e fx :
  Argparse.parse_args W parser argv = Parsed args ->
  create_message W args no_effects = (Raise e, fx) ->
  run W argv = finish (Raise e) no_effects.
Proof.
  intros H Hc. pose proof (create_message_silent _ _ _ _ Hc) as ->.
  unfold run, main, bind, parse_args. rewrite H. simpl. now rewrite Hc.
Qed.

Lemma called_called fx l1 l2 : called (called fx l1) l2 = called fx (l1 ++ l2).
Proof. unfold called. simpl. now rewrite <- app_assoc. Qed.

(** The transport statements, step by step. *)
Lemma send_steps args msg fx h p u pw f t :
  args !! "smtp_server" = Some h -> args !! "smtp_port" = Some p ->
  args !! "smtp_user" = Some u -> args !! "smtp_password" = Some pw ->
  args !! "from_email" = Some f -> args !! "to_email" = Some t ->
  send W args msg fx =
  match SMTP_SSL_raises W h p with
  | Some e => (Raise e, called fx [Smtplib.SMTP_SSL h p])
  | None =>
  match login_raises W u pw with
  | Some e => (Raise e, called fx [Smtplib.SMTP_SSL h p; Smtplib.login u pw])
  | None =>
  match as_string W msg with
  | Raise e => (Raise e, called fx [Smtplib.SMTP_SSL h p; Smtplib.login u pw])
  | Ok data =>
  match sendmail_raises W f t data with
  | Some e =>
      (Raise e, called fx [Smtplib.SMTP_SSL h p; Smtplib.login u pw;
                           Smtplib.sendmail f t data])
  | None =>
  match quit_raises W with
  | Some e => (Raise e, called fx (steps h p u pw f t data))
  | None => (Ok tt, called fx (steps h p u pw f t data))
  end end end end end.
Proof.
  intros Hh Hp Hu Hpw Hf Ht.
  unfold send, bind, getattr, smtp, lift, ret, steps, called.
  rewrite Hh, Hp, Hu, Hpw, Hf, Ht.
  destruct (SMTP_SSL_raises W h p); [reflexivity|].
  destruct (login_raises W u pw); simpl; [now rewrite <- !app_assoc|].
  destruct (as_string W msg) as [data|]; simpl; [|now rewrite <- !app_assoc].
  destruct (sendmail_raises W f t data); simpl; [now rewrite <- !app_assoc|].
  destruct (quit_raises W); simpl; now rewrite <- !app_assoc.
Qed.

End ScriptFacts.

Section Claims.

Variable W : World.


Lemma append_assoc (s1 s2 s3 : string) : (s1 ++ s2) ++ s3 = s1 ++ (s2 ++ s3).
Proof. induction s1 as [|c s1 IH]; simpl; [reflexivity|]. now rewrite IH. Qed.

Lemma append_empty_r (s : string) : s ++ EmptyString = s.
Proof. induction s as [|c s IH]; simpl; [reflexivity|]. now rewrite IH. Qed.



Lemma send_block_catches args msg fx e fx' :
  send W args msg fx = (Raise e, fx') ->
  isinstance_Exception e = true ->
  send_block W args msg fx =
  (Ok tt, {| stdout := stdout fx';
             stderr := (stderr fx' ++ [diagnostic e])%list;
             network := network fx' |}).
Proof.
  intros Hs He. unfold send_block, try_except_Exception. now rewrite Hs, He.
Qed.


End Claims.



(** What a run looks like once the message is built, from what the
    transport statements did. *)
Lemma run_sent W argv args msg r fx :
  Argparse.parse_args W parser argv = Parsed args ->
  create_message W args no_effects = (Ok msg, no_effects) ->
  send W args msg no_effects = (r, fx) ->
  run W argv =
  match r with
  | Ok _ => {| status := 0; out := []; err := []; calls := network fx |}
  | Raise e =>
      if isinstance_Exception e
      then {| status := 0; out := []; err := [diagnostic e];
              calls := network fx |}
      else finish (Raise e) (called no_effects (network fx))
  end.
Proof.
  intros Hp Hc Hs. rewrite (run_created W argv args msg Hp Hc).
  destruct (send_quiet W args msg _ _ _ Hs) as [Ho He]. simpl in Ho, He.
  destruct r as [[]|e].
  - unfold send_block, try_except_Exception. rewrite Hs. simpl.
    now rewrite Ho, He.
  - destruct (isinstance_Exception e) eqn:Hi.
    + rewrite (send_block_catches W _ _ _ _ _ Hs Hi). simpl. now rewrite Ho, He.
    + unfold send_block, try_except_Exception. rewrite Hs, Hi.
      destruct fx as [o s n]. simpl in *. now subst.
Qed.

Lemma Parsed_reads W argv args :
  Argparse.parse_args W parser argv = Parsed args ->
  exists h p u pw f t,
    args !! "smtp_server" = Some h /\ args !! "smtp_port" = Some p
    /\ args !! "smtp_user" = Some u /\ args !! "smtp_password" = Some pw
    /\ args !! "from_email" = Some f /\ args !! "to_email" = Some t.
Proof.
  intros Hp.
  destruct (Parsed_fields W argv args "smtp_server" str Hp) as (h & Hh & _); [in_list|].
  destruct (Parsed_fields W argv args "smtp_port" int Hp) as (p & Hpo & _); [in_list|].
  destruct (Parsed_fields W argv args "smtp_user" str Hp) as (u & Hu & _); [in_list|].
  destruct (Parsed_fields W argv args "smtp_password" str Hp) as (pw & Hpw & _); [in_list|].
  destruct (Parsed_fields W argv args "from_email" str Hp) as (f & Hf & _); [in_list|].
  destruct (Parsed_fields W argv args "to_email" str Hp) as (t & Ht & _); [in_list|].
  exists h, p, u, pw, f, t. tauto.
Qed.

(** C10 (as the code has it). After a successful parse: every [Exception]
    raised anywhere in the transport statements of lines 28-31, whatever
    its class, is caught (the run ends with status 0 and the diagnostic);
    an exception that does leave that phase is never an instance of
    [Exception]; and an [Exception] raised while the message is built,
    which happens outside the [try], is not caught: the run ends with a
    traceback and status 1, before any call into [smtplib]. *)
Theorem except_clause_scope W argv args :
  Argparse.parse_args W parser argv = Parsed args ->
  (forall msg e fx,
     create_message W args no_effects = (Ok msg, no_effects) ->
     send W args msg no_effects = (Raise e, fx) ->
     isinstance_Exception e = true ->
     status (run W argv) = 0%Z /\ err (run W argv) = [diagnostic e])
  /\ (forall msg e,
        create_message W args no_effects = (Ok msg, no_effects) ->
        In (Traceback e) (err (run W argv)) ->
        isinstance_Exception e = false)
  /\ (forall e fx,
        create_message W args no_effects = (Raise e, fx) ->
        isinstance_Exception e = true ->
        status (run W argv) = 1%Z /\ err (run W argv) = [Traceback e]
        /\ out (run W argv) = [] /\ calls (run W argv) = []).
Proof.
  intros Hp. split; [|split].
  - intros msg e fx Hc Hs He.
    rewrite (run_sent W argv args msg _ _ Hp Hc Hs), He. now split.
  - intros msg e Hc.
    destruct (send W args msg no_effects) as [r fx] eqn:Hs.
    rewrite (run_sent W argv args msg _ _ Hp Hc Hs).
    destruct r as [[]|e']; simpl; [tauto|].
    destruct (isinstance_Exception e') eqn:Hi; simpl.
    + unfold diagnostic. intros [[=]|[]].
    + destruct e'; simpl; try discriminate Hi; intros H;
        repeat (destruct H as [[= <-]|H]); try contradiction; reflexivity.
  - intros e fx Hc He.
    rewrite (run_not_created W argv args e fx Hp Hc).
    destruct e; try discriminate He. now simpl.
Qed.

Lemma except_clause_scope_witness :
  status (run (peer 7 None (Some auth_rejected) None None) argv_example) = 0%Z
  /\ status (run (peer 7 None None None None) argv_list_body) = 1%Z.
Proof.
  split.
  - refine (proj1 (proj1 (except_clause_scope
              (peer 7 None (Some auth_rejected) None None) argv_example
              args_example _) msg_example auth_rejected
              {| stdout := []; stderr := [];
                 network := [ Smtplib.SMTP_SSL (PyStr "mail.example.com") (PyInt 465);
                              Smtplib.login (PyStr "a@example.com") (PyStr "secret") ] |}
              _ _ _)); vm_compute; reflexivity.
  - refine (proj1 (proj2 (proj2 (except_clause_scope
              (peer 7 None None None None) argv_list_body
              (<[ "body" := PyList [] ]> args_example) _))
              (Exception "AttributeError"
                 "'list' object has no attribute 'encode'")
              no_effects _ _)); vm_compute; reflexivity.
Defined.

(** C10, the claim as stated fails: an interrupt raised during the login
    is no [Exception]; it leaves the transport phase, and the run ends with
    a traceback and without the diagnostic. *)
Lemma interrupt_escapes :
  run (peer 7 None (Some KeyboardInterrupt) None None) argv_example
  = {| status := 130; out := []; err := [Traceback KeyboardInterrupt];
       calls := [ Smtplib.SMTP_SSL (PyStr "mail.example.com") (PyInt 465);
                  Smtplib.login (PyStr "a@example.com") (PyStr "secret") ] |}.
Proof. vm_compute. reflexivity. Qed.

Lemma run_calls W argv args msg r fx :
  Argparse.parse_args W parser argv = Parsed args ->
  create_message W args no_effects = (Ok msg, no_effects) ->
  send W args msg no_effects = (r, fx) ->
  calls (run W argv) = network fx.
Proof.
  intros Hp Hc Hs. rewrite (run_sent W argv args msg r fx Hp Hc Hs).
  destruct r as [[]|[| |]]; reflexivity.
Qed.




(** The calls of a run, whatever happens: none, or an initial part of the
    transport steps that stops at the first step that raises. *)
Lemma calls_cases W argv :
  calls (run W argv) = []
  \/ exists h p u pw f t,
       (calls (run W argv) = [Smtplib.SMTP_SSL h p]
        /\ SMTP_SSL_raises W h p <> None)
       \/ (calls (run W argv) = [Smtplib.SMTP_SSL h p; Smtplib.login u pw]
           /\ SMTP_SSL_raises W h p = None)
       \/ exists data,
            SMTP_SSL_raises W h p = None /\ login_raises W u pw = None
            /\ ((calls (run W argv)
                 = [Smtplib.SMTP_SSL h p; Smtplib.login u pw;
                    Smtplib.sendmail f t data]
                 /\ sendmail_raises W f t data <> None)
                \/ (calls (run W argv) = steps h p u pw f t data
                    /\ sendmail_raises W f t data = None)).
Proof.
  destruct (Argparse.parse_args W parser argv) as [args| |e] eqn:Hp.
  2:{ left. now rewrite (run_Help W argv Hp). }
  2:{ left. now rewrite (run_Usage W argv e Hp). }
  destruct (create_message W args no_effects) as [[msg|e] fx0] eqn:Hc.
  2:{ left. rewrite (run_not_created W argv args e fx0 Hp Hc).
      now destruct e. }
  pose proof (create_message_silent W args _ _ _ Hc) as ->.
  destruct (Parsed_reads W argv args Hp)
    as (h & p & u & pw & f & t & Hh & Hpo & Hu & Hpw & Hf & Ht).
  right. exists h, p, u, pw, f, t.
  pose proof (send_steps W args msg no_effects h p u pw f t Hh Hpo Hu Hpw Hf Ht)
    as Hs.
  destruct (send W args msg no_effects) as [r fx] eqn:Hsend.
  rewrite (run_calls W argv args msg r fx Hp Hc Hsend).
  destruct (SMTP_SSL_raises W h p) eqn:E1.
  { injection Hs as -> ->. left. now split. }
  destruct (login_raises W u pw) eqn:E2.
  { injection Hs as -> ->. right. left. now split. }
  destruct (as_string W msg) as [data|e].
  2:{ injection Hs as -> ->. right. left. now split. }
  right. right. exists data. split; [reflexivity|]. split; [reflexivity|].
  destruct (sendmail_raises W f t data) eqn:E3.
  { injection Hs as -> ->. left. now split. }
  right. destruct (quit_raises W); injection Hs as -> ->; now split.
Qed.

(** C7. In every run in which the connection, the login or the send was
    reached and raised, [quit] is not called; [quit] is called only at
    the end of the complete sequence, after a [sendmail] that returned. *)
Theorem quit_only_after_send W argv :
  (forall c, In c (calls (run W argv)) -> failed_step W c ->
     ~ In Smtplib.quit (calls (run W argv)))
  /\ (In Smtplib.quit (calls (run W argv)) ->
      exists h p u pw f t data,
        calls (run W argv) = steps h p u pw f t data
        /\ SMTP_SSL_raises W h p = None /\ login_raises W u pw = None
        /\ sendmail_raises W f t data = None).
Proof.
  destruct (calls_cases W argv)
    as [->|(h & p & u & pw & f & t &
            [[-> E1]|[[-> E1]|(data & E1 & E2 & [[-> E3]|[-> E3]])]])].
  - split; [intros c []|intros []].
  - split; [|]; simpl; intros; intuition discriminate.
  - split; [|]; simpl; intros; intuition discriminate.
  - split; [|]; simpl; intros; intuition discriminate.
  - split.
    + intros c Hin Hfail _. simpl in Hin.
      destruct Hin as [<-|[<-|[<-|[<-|[]]]]]; simpl in Hfail; auto.
    + intros _. exists h, p, u, pw, f, t, data. auto.
Qed.

Lemma quit_only_after_send_witness :
  ~ In Smtplib.quit
      (calls (run (peer 7 None (Some auth_rejected) None None) argv_example)).
Proof.
  refine (proj1 (quit_only_after_send
            (peer 7 None (Some auth_rejected) None None) argv_example)
            (Smtplib.login (PyStr "a@example.com") (PyStr "secret")) _ _).
  - vm_compute. right. left. reflexivity.
  - simpl. discriminate.
Defined.





(** C9. There is a run in which [sendmail] returns, so that the server has
    taken the message, and [quit] then raises: the diagnostic of a failed
    send is printed all the same. *)
Theorem diagnostic_after_delivery :
  exists W argv f t data e,
    calls (run W argv)
    = [ Smtplib.SMTP_SSL (PyStr "mail.example.com") (PyInt 465);
        Smtplib.login (PyStr "a@example.com") (PyStr "secret");
        Smtplib.sendmail f t data; Smtplib.quit ]
    /\ sendmail_raises W f t data = None
    /\ quit_raises W = Some e
    /\ err (run W argv) = [diagnostic e]
    /\ status (run W argv) = 0%Z.
Proof.
  exists (peer 7 None None None (Some disconnected)), argv_example.
  eexists _, _, _, disconnected. vm_compute. repeat split.
Qed.

(** C2 (as the code has it). A command line that gives one of the eight
    required flags in no spelling never reaches the network, and unless it
    asks for the help it ends in a usage error: the usage and the error
    message on standard error, nothing on standard output, status 2. When
    it does ask for the help, argparse may print the help on standard
    output and exit with status 0 instead. *)
Theorem missing_flag_is_usage_error W argv flag :
  In flag required_flags ->
  omits flag argv = true ->
  calls (run W argv) = []
  /\ ((status (run W argv) = 2%Z /\ out (run W argv) = []
       /\ exists e, err (run W argv) = [format_usage; error_message e])
      \/ (asks_help argv = true /\ status (run W argv) = 0%Z
          /\ out (run W argv) = [format_help] /\ err (run W argv) = []))
  /\ (asks_help argv = false ->
      status (run W argv) = 2%Z /\ out (run W argv) = []
      /\ exists e, err (run W argv) = [format_usage; error_message e]).
Proof.
  intros Hflag Hom.
  destruct (Argparse.parse_args W parser argv) as [args| |e] eqn:Hp.
  - now apply (omitted_not_Parsed W flag argv args Hflag Hom) in Hp.
  - pose proof (Help_asked W argv Hp) as Hask.
    rewrite (run_Help W argv Hp). simpl.
    split; [reflexivity|]. split; [right; auto|]. congruence.
  - rewrite (run_Usage W argv e Hp). simpl.
    split; [reflexivity|]. split; [left|intros _]; eauto.
Qed.

Lemma missing_flag_is_usage_error_witness :
  status (run (peer 7 None None None None)
            ["--smtp_server"; "mail.example.com"; "--smtp_port"; "465"]) = 2%Z.
Proof.
  refine (proj1 (proj2 (proj2 (missing_flag_is_usage_error
            (peer 7 None None None None)
            ["--smtp_server"; "mail.example.com"; "--smtp_port"; "465"]
            "--subject" _ _)) _)).
  - in_list.
  - reflexivity.
  - reflexivity.
Defined.

(** C2, the claim as stated fails: [--help] omits all eight flags, and
    the program prints the help on standard output and exits with
    status 0, with nothing on standard error. *)
Lemma help_omits_every_flag :
  forallb (fun flag => omits flag ["--help"]) required_flags = true
  /\ status (run (peer 7 None None None None) ["--help"]) = 0%Z
  /\ out (run (peer 7 None None None None) ["--help"]) = [format_help]
  /\ err (run (peer 7 None None None None) ["--help"]) = [].
Proof. repeat split. Qed.

(** C6 (as the code has it). After a successful parse each of the four
    message attributes holds what its flag was given: a string, which may
    be empty, or the empty list argparse makes of the argument [--]. *)
Theorem message_fields_supplied W argv args name :
  Argparse.parse_args W parser argv = Parsed args ->
  In name ["from_email"; "to_email"; "subject"; "body"] ->
  exists v, args !! name = Some v
    /\ ((exists s, v = PyStr s) \/ v = PyList []).
Proof.
  intros Hp Hin.
  apply (Parsed_fields W argv args name str Hp).
  simpl in Hin |- *. intuition (subst; auto).
Qed.

Lemma message_fields_supplied_witness :
  exists v, args_example !! "body" = Some v
    /\ ((exists s, v = PyStr s) \/ v = PyList []).
Proof.
  refine (message_fields_supplied (peer 7 None None None None) argv_example
            args_example "body" _ _).
  - vm_compute. reflexivity.
  - in_list.
Defined.

(** C6, the claim as stated fails: an empty [--body] is accepted, and the
    message is built and sent with an empty body. *)
Lemma empty_body_is_parsed :
  Argparse.parse_args (peer 7 None None None None) parser argv_empty_body
  = Parsed (<[ "body" := PyStr EmptyString ]> args_example)
  /\ status (run (peer 7 None None None None) argv_empty_body) = 0%Z
  /\ In Smtplib.quit (calls (run (peer 7 None None None None) argv_empty_body)).
Proof.
  split; [vm_compute; reflexivity|]. split; [reflexivity|].
  vm_compute. auto.
Qed.



Section Serialization.

Variables W W' : World.
Hypothesis same_token : randrange W = randrange W'.
Hypothesis same_fold : forall name v, policy_fold W name v = policy_fold W' name v.
Hypothesis same_encode : forall s, encode_utf8 W s = encode_utf8 W' s.

Lemma MIMEText_ext v sub : MIMEText W v sub = MIMEText W' v sub.
Proof. unfold MIMEText. destruct v; try reflexivity. now rewrite same_encode. Qed.

Lemma write_headers_ext hs : _write_headers W hs = _write_headers W' hs.
Proof.
  induction hs as [|[h v] hs IH]; simpl; [reflexivity|].
  now rewrite same_fold, IH.
Qed.

Lemma flatten_parts_ext parts : flatten_parts W parts = flatten_parts W' parts.
Proof.
  induction parts as [|part parts IH]; simpl; [reflexivity|].
  unfold flatten_text. now rewrite write_headers_ext, IH.
Qed.

Lemma as_string_ext msg : as_string W msg = as_string W' msg.
Proof.
  unfold as_string, _make_boundary. rewrite flatten_parts_ext, same_token.
  destruct (flatten_parts W' (_payload msg)) as [texts|]; simpl; [|reflexivity].
  now rewrite write_headers_ext.
Qed.

End Serialization.

(** C5 (as the code has it). The serialized message is a function of the
    four message attributes and of the boundary token the generator draws:
    two builds that agree on these (and run the same library) give the same
    text, whatever the four [smtp_*] attributes and the peer are. *)
Theorem serialization_determined W W' args args' :
  randrange W = randrange W' ->
  (forall name v, policy_fold W name v = policy_fold W' name v) ->
  (forall s, encode_utf8 W s = encode_utf8 W' s) ->
  (forall name, In name ["from_email"; "to_email"; "subject"; "body"] ->
     args !! name = args' !! name) ->
  serialized W args = serialized W' args'.
Proof.
  intros Htok Hfold Henc Hargs.
  unfold serialized, create_message, bind, getattr, lift, ret.
  rewrite <- (Hargs "from_email"), <- (Hargs "to_email"),
    <- (Hargs "subject"), <- (Hargs "body") by in_list.
  destruct (args !! "from_email"); [|reflexivity].
  destruct (args !! "to_email"); [|reflexivity].
  destruct (args !! "subject"); [|reflexivity].
  destruct (args !! "body") as [body|]; [|reflexivity].
  rewrite (MIMEText_ext W W' Henc).
  destruct (MIMEText W' body "plain"); [|reflexivity].
  now apply as_string_ext.
Qed.

Lemma serialization_determined_witness :
  serialized (peer 7 None None None None) args_example
  = serialized (peer 7 (Some auth_rejected) None None None)
      (<[ "smtp_port" := PyInt 587 ]> args_example).
Proof.
  refine (serialization_determined _ _ _ _ _ _ _ _); try reflexivity.
  intros name Hin.
  repeat (destruct Hin as [<-|Hin]; [vm_compute; reflexivity|]).
  destruct Hin.
Defined.

(** C5, the claim as stated fails: two builds from the same eight
    attributes that draw different boundary tokens serialize to different
    texts. *)
Lemma boundary_differs :
  serialized (peer 1 None None None None) args_example
  <> serialized (peer 2 None None None None) args_example.
Proof. intros H. vm_compute in H. discriminate H. Qed.

(** * Further properties *)

Import CommandLine.

(** ** The main loop: the items it reaches *)

Section ConsumeMore.

Variable W : World.
Variable p : list Action.

(** The loop comes to every item that is not a plain argument: such an item
    is never taken as the value of the option before it. *)
Lemma consume_reaches : forall n pre x post st st',
  (length pre <= n)%nat ->
  snd x <> A ->
  consume W p (pre ++ x :: post) st = Continue st' ->
  exists st1, consume W p (x :: post) st1 = Continue st'.
Proof.
  induction n as [|n IH]; intros pre x post st st' Hlen Hx.
  - destruct pre; [|simpl in Hlen; lia]. simpl. eauto.
  - destruct pre as [|[s pat] pre]; [simpl; eauto|].
    simpl in Hlen. rewrite <- app_comm_cons.
    destruct pat as [|[[a|] os e]|].
    + simpl. apply IH; [lia|assumption].
    + destruct (class a) eqn:Hc.
      * rewrite consume_store by assumption.
        destruct e as [v|].
        -- destruct (take_action W st (a, [v], os)); try discriminate.
           apply IH; [lia|assumption].
        -- destruct pre as [|[v pat'] pre'].
           ++ simpl. destruct x as [v [| |]]; simpl in Hx; try discriminate.
              congruence.
           ++ rewrite <- app_comm_cons. destruct pat'; try discriminate.
              destruct (take_action W st (a, [v], os)); try discriminate.
              apply IH; [simpl in Hlen; lia|assumption].
      * intros Hcont. now apply consume_help in Hcont.
    + simpl. apply IH; [lia|assumption].
    + simpl. apply IH; [lia|assumption].
Qed.

(** A stretch of the command line that the loop gets through on its own is
    gone through in the same way when more follows. *)
Lemma consume_app : forall n items items' st st1,
  (length items <= n)%nat ->
  consume W p items st = Continue st1 ->
  consume W p (items ++ items') st = consume W p items' st1.
Proof.
  induction n as [|n IH]; intros items items' st st1 Hlen.
  - destruct items; [|simpl in Hlen; lia]. simpl. now intros [= ->].
  - destruct items as [|[s pat] items]; [simpl; now intros [= ->]|].
    simpl in Hlen. rewrite <- app_comm_cons.
    destruct pat as [|[[a|] os e]|].
    + simpl. apply IH. lia.
    + destruct (class a) eqn:Hc.
      * rewrite !consume_store by assumption.
        destruct e as [v|].
        -- destruct (take_action W st (a, [v], os)); try discriminate.
           apply IH. lia.
        -- destruct items as [|[v pat'] items]; [discriminate|].
           rewrite <- app_comm_cons. destruct pat'; try discriminate.
           destruct (take_action W st (a, [v], os)); try discriminate.
           apply IH. simpl in Hlen. lia.
      * intros Hcont. now apply consume_help in Hcont.
    + simpl. apply IH. lia.
    + simpl. apply IH. lia.
Qed.

(** The loop never takes anything back from the extras. *)
Lemma consume_extras : forall items st st',
  consume W p items st = Continue st' -> extras st <> [] -> extras st' <> [].
Proof.
  intros items st st' Hc Hne. revert Hc.
  apply (consume_invariant W p (fun st => extras st <> []) (fun _ => True))
    with (n := length items); auto.
  - intros st0 s H. simpl. now destruct (extras st0).
  - intros st0 a v os st1 _ _ HI Ht.
    apply take_action_Continue in Ht. destruct Ht as (v' & _ & _ & ->). exact HI.
Qed.

End ConsumeMore.

(** ** The pattern of a command line, piece by piece *)

Lemma combine_app_same {X Y} (l1 l2 : list X) (p1 p2 : list Y) :
  length l1 = length p1 ->
  combine (l1 ++ l2) (p1 ++ p2) = (combine l1 p1 ++ combine l2 p2)%list.
Proof.
  revert p1. induction l1 as [|x l1 IH]; intros [|y p1]; simpl; try discriminate;
    [reflexivity|].
  intros [= H]. now rewrite IH.
Qed.

Section PatternFacts.

Variable W : World.
Variable p : list Action.

Lemma arg_strings_pattern_length : forall argv pats,
  arg_strings_pattern W p argv = inr pats -> length pats = length argv.
Proof.
  induction argv as [|s argv IH]; intros pats; simpl.
  - now intros [= <-].
  - destruct (String.eqb s "--").
    + intros [= <-]. simpl. now rewrite length_map.
    + destruct (_parse_optional W p s); [| |discriminate];
        (destruct (arg_strings_pattern W p argv) as [|ps]; [discriminate|]);
        intros [= <-]; simpl; f_equal; now apply IH.
Qed.

(** In front of the first [--] the pattern is made string by string. *)
Lemma arg_strings_pattern_app : forall l1 l2,
  ~ In "--" l1 ->
  arg_strings_pattern W p (l1 ++ l2) =
  match arg_strings_pattern W p l1 with
  | inl e => inl e
  | inr p1 =>
      match arg_strings_pattern W p l2 with
      | inl e => inl e
      | inr p2 => inr (p1 ++ p2)%list
      end
  end.
Proof.
  induction l1 as [|s l1 IH]; intros l2 Hn; simpl.
  - now destruct (arg_strings_pattern W p l2).
  - destruct (String.eqb_spec s "--") as [->|_]; [exfalso; apply Hn; now left|].
    rewrite IH by (intros H; apply Hn; now right).
    destruct (_parse_optional W p s); try reflexivity;
      destruct (arg_strings_pattern W p l1); try reflexivity;
      destruct (arg_strings_pattern W p l2); reflexivity.
Qed.

(** The item of an argument string in front of the first [--]: an [A]
    when the string is no option, an [O] with the option tuple otherwise. *)
Lemma items_split l1 tok l2 pats :
  ~ In "--" l1 -> tok <> "--" ->
  arg_strings_pattern W p (l1 ++ tok :: l2) = inr pats ->
  exists p1 pat p2,
    arg_strings_pattern W p l1 = inr p1
    /\ arg_strings_pattern W p l2 = inr p2
    /\ combine (l1 ++ tok :: l2) pats
       = (combine l1 p1 ++ (tok, pat) :: combine l2 p2)%list
    /\ match pat with
       | A => _parse_optional W p tok = positional
       | O t => _parse_optional W p tok = optional t
       | Dash => False
       end.
Proof.
  intros Hn Htok. rewrite arg_strings_pattern_app by assumption.
  destruct (arg_strings_pattern W p l1) as [|p1] eqn:H1; [discriminate|].
  simpl. destruct (String.eqb_spec tok "--") as [|_]; [contradiction|].
  pose proof (arg_strings_pattern_length l1 p1 H1) as Hlen.
  destruct (_parse_optional W p tok) as [|t|] eqn:Hc; [| |discriminate];
    (destruct (arg_strings_pattern W p l2) as [|p2]; [discriminate|]);
    intros [= <-]; eexists p1, _, p2; (split; [reflexivity|]);
    (split; [reflexivity|]);
    (split; [now rewrite combine_app_same by (symmetry; exact Hlen)|]); reflexivity.
Qed.

(** The first [--] of a command line is an item of its own. *)
Lemma items_dashes : forall argv pats,
  In "--" argv -> arg_strings_pattern W p argv = inr pats ->
  exists pre post, combine argv pats = (pre ++ ("--", Dash) :: post)%list.
Proof.
  induction argv as [|s argv IH]; intros pats Hin; [destruct Hin|]. simpl.
  destruct (String.eqb_spec s "--") as [->|Hs].
  - intros [= <-]. exists [], (combine argv (map (fun _ => A) argv)). reflexivity.
  - destruct Hin as [Heq|Hin]; [congruence|].
    destruct (_parse_optional W p s); [| |discriminate];
      (destruct (arg_strings_pattern W p argv) as [|ps] eqn:Hps; [discriminate|]);
      intros [= <-]; destruct (IH ps Hin eq_refl) as (pre & post & ->);
      eexists (_ :: pre), post; reflexivity.
Qed.

End PatternFacts.

Section Rejections.

Variable W : World.

(** A command line with the argument [--] is never parsed into a
    namespace: the [--] and all that follows it are left over. *)
Lemma dashes_not_Parsed argv args :
  In "--" argv -> Argparse.parse_args W parser argv <> Parsed args.
Proof.
  intros Hin Hp.
  destruct (parse_args_Parsed W argv args Hp)
    as (pats & st & Hpats & Hcons & _ & Hex & _).
  destruct (items_dashes W parser argv pats Hin Hpats) as (pre & post & Heq).
  rewrite Heq in Hcons.
  apply (consume_reaches W parser (length pre)) in Hcons; [|lia|discriminate].
  destruct Hcons as [st1 Hcons]. simpl in Hcons.
  apply consume_extras in Hcons; [contradiction|].
  simpl. now destruct (extras st1).
Qed.

End Rejections.

(** ** Flags written in full or abbreviated *)

Lemma startswith_prefixes s : forall p, startswith s p = true -> In p (prefixes s).
Proof.
  induction s as [|c s IH]; intros [|d p]; simpl; try discriminate; auto.
  intros H. apply andb_prop in H as [Hc H]. apply Ascii.eqb_eq in Hc. subst d.
  right. apply in_map. now apply IH.
Qed.

Section Classify.

Variable W : World.

(** A flag written in full or abbreviated is read as that flag, with the
    value after [=] when there is one. *)
Lemma parse_optional_flag o flag :
  In flag required_flags -> abbreviates o flag = true ->
  exists action,
    lookup_option (option_string_actions parser) flag = Some action
    /\ class action = store /\ dest action = attribute flag
    /\ option_strings action = [flag]
    /\ o <> "--"
    /\ _parse_optional W parser o = optional (Tuple (Some action) flag None)
    /\ forall v,
         o ++ "=" ++ v <> "--"
         /\ _parse_optional W parser (o ++ "=" ++ v)
            = optional (Tuple (Some action) flag (Some v)).
Proof.
  intros Hflag Hab. unfold abbreviates in Hab.
  apply andb_prop in Hab as [Hpre Huniq]. apply startswith_prefixes in Hpre.
  simpl in Hflag.
  repeat (destruct Hflag as [<-|Hflag]; [
    simpl in Hpre;
    repeat (destruct Hpre as [Heq|Hpre]; [
      subst o; vm_compute in Huniq;
      first [ discriminate Huniq
            | eexists; split; [vm_compute; reflexivity|];
              split; [reflexivity|]; split; [reflexivity|]; split; [reflexivity|];
              split; [discriminate|]; split; [vm_compute; reflexivity|];
              intros v; split; [discriminate|vm_compute; reflexivity] ] |]);
    destruct Hpre |]).
  destruct Hflag.
Qed.

End Classify.

(** ** Command lines made of assignments *)

Lemma attribute_flag flag :
  In flag required_flags -> "--" ++ attribute flag = flag.
Proof.
  intros H. simpl in H.
  repeat (destruct H as [<-|H]; [reflexivity|]). destruct H.
Qed.

Lemma attribute_inj f g :
  In f required_flags -> In g required_flags ->
  attribute f = attribute g -> f = g.
Proof.
  intros Hf Hg H. rewrite <- (attribute_flag f Hf), <- (attribute_flag g Hg).
  now rewrite H.
Qed.

Section WellFormed.

Variable W : World.

(** A string that does not start with [-] is no option. *)
Lemma parse_optional_plain p v :
  startswith v "-" = false ->
  v <> "--" /\ _parse_optional W p v = positional.
Proof.
  destruct v as [|c v]; simpl; [intros _; split; [discriminate|reflexivity]|].
  rewrite andb_true_r. intros H. split; [intros [= -> _]; discriminate H|].
  unfold prefix_chars. rewrite Ascii.eqb_sym, H. reflexivity.
Qed.

Lemma take_action_stored st action flag s v os :
  lookup_option (option_string_actions parser) flag = Some action ->
  class action = store -> dest action = attribute flag ->
  s <> "--" -> converted W flag s = Some v ->
  take_action W st (action, [s], os) = Continue (stored st (flag, v)).
Proof.
  intros Hl Hc Hd Hs Hv. unfold take_action, _get_values. simpl.
  destruct (String.eqb_spec s "--") as [|_]; [contradiction|].
  rewrite Hc. unfold converted in Hv. rewrite Hl in Hv.
  destruct (_get_value W action s) as [|v']; [discriminate|].
  injection Hv as ->. unfold stored. simpl. now rewrite Hd.
Qed.

(** The items of one assignment, and what the loop does at them. *)
Lemma assignment_items a flag v :
  gives W a flag v ->
  exists pa,
    arg_strings_pattern W parser (words a) = inr pa
    /\ ~ In "--" (words a)
    /\ forall rest st,
         consume W parser (combine (words a) pa ++ rest) st
         = consume W parser rest (stored st (flag, v)).
Proof.
  intros [Hflag Ha].
  destruct a as [o s|o s]; destruct Ha as (Hab & Hs & Hv);
    destruct (parse_optional_flag W o flag Hflag Hab)
      as (action & Hl & Hc & Hd & _ & Ho & Hpo & Hjoined).
  - destruct (parse_optional_plain parser s Hs) as [Hs' Hps].
    exists [O (Tuple (Some action) flag None); A]. simpl.
    destruct (String.eqb_spec o "--") as [|_]; [contradiction|].
    destruct (String.eqb_spec s "--") as [|_]; [contradiction|].
    rewrite Hpo, Hps. split; [reflexivity|]. split; [tauto|].
    intros rest st. rewrite Hc.
    now rewrite (take_action_stored st action flag s v flag Hl Hc Hd Hs' Hv).
  - destruct (Hjoined s) as [Hne Hpj].
    exists [O (Tuple (Some action) flag (Some s))].
    cbn [words arg_strings_pattern].
    destruct (String.eqb_spec (o ++ "=" ++ s) "--") as [|_]; [contradiction|].
    rewrite Hpj. split; [reflexivity|]. split; [simpl; tauto|].
    intros rest st. cbn [combine app]. rewrite consume_store by assumption.
    now rewrite (take_action_stored st action flag s v flag Hl Hc Hd Hs Hv).
Qed.

Lemma command_line_items l fvs :
  Forall2 (fun a fv => gives W a (fst fv) (snd fv)) l fvs ->
  exists pats,
    arg_strings_pattern W parser (command_line l) = inr pats
    /\ ~ In "--" (command_line l)
    /\ forall st,
         consume W parser (combine (command_line l) pats) st
         = Continue (fold_left stored fvs st).
Proof.
  induction 1 as [|a [flag v] l fvs Ha _ IH].
  - exists []. repeat split; auto.
  - destruct IH as (pl & Hpl & Hnl & Hcl).
    destruct (assignment_items a flag v Ha) as (pa & Hpa & Hna & Hca).
    exists (pa ++ pl)%list. cbn [command_line flat_map].
    rewrite arg_strings_pattern_app by assumption.
    fold (command_line l). rewrite Hpa, Hpl. split; [reflexivity|].
    split; [rewrite in_app_iff; tauto|].
    intros st.
    rewrite combine_app_same
      by (symmetry; eapply arg_strings_pattern_length; eassumption).
    rewrite Hca, Hcl. reflexivity.
Qed.

Lemma fold_stored_extras fvs : forall st,
  extras (fold_left stored fvs st) = extras st.
Proof. induction fvs as [|fv fvs IH]; intros st; simpl; [|rewrite IH]; reflexivity. Qed.

Lemma fold_stored_namespace fvs flag :
  In flag required_flags ->
  Forall (fun fv => In (fst fv) required_flags) fvs ->
  forall st,
    namespace (fold_left stored fvs st) !! attribute flag
    = match last_given fvs flag with
      | Some v => Some v
      | None => namespace st !! attribute flag
      end.
Proof.
  intros Hflag. induction 1 as [|[f v] fvs Hf _ IH]; intros st; simpl;
    [reflexivity|].
  rewrite IH. destruct (last_given fvs flag); [reflexivity|]. simpl.
  simpl in Hf. destruct (String.eqb_spec f flag) as [->|Hne].
  - apply lookup_insert_eq.
  - apply lookup_insert_ne. intros H. apply Hne. now apply attribute_inj.
Qed.

Lemma fold_stored_seen fvs flag :
  In flag required_flags ->
  Forall (fun fv => In (fst fv) required_flags) fvs ->
  forall st,
    attribute flag ∈ seen_actions (fold_left stored fvs st)
    <-> last_given fvs flag <> None \/ attribute flag ∈ seen_actions st.
Proof.
  intros Hflag. induction 1 as [|[f v] fvs Hf _ IH]; intros st; simpl;
    [tauto|].
  rewrite IH. destruct (last_given fvs flag); [intuition congruence|]. simpl.
  simpl in Hf. rewrite elem_of_union, elem_of_singleton.
  destruct (String.eqb_spec f flag) as [->|Hne].
  - intuition congruence.
  - split; [intros [?|[Heq|?]]|intros [?|?]]; auto; try congruence.
    exfalso. apply Hne. symmetry. now apply attribute_inj.
Qed.

Lemma required_actions_add p flag ty seen :
  required_actions (add_argument p flag ty true) seen
  = (required_actions p seen
     ++ (if negb (bool_decide (attribute flag ∈ seen)) then [[flag]] else []))%list.
Proof.
  unfold required_actions, add_argument. rewrite flat_map_app. simpl.
  rewrite andb_true_r, app_nil_r. reflexivity.
Qed.

Lemma map_filter_cons {X Y} (f : X -> Y) g x l :
  map f (List.filter g (x :: l))
  = ((if g x then [f x] else []) ++ map f (List.filter g l))%list.
Proof. simpl. now destruct (g x). Qed.

(** The required actions that have not been seen, flag by flag. *)
Lemma required_actions_parser seen :
  required_actions parser seen
  = map (fun flag => [flag])
      (List.filter (fun flag => negb (bool_decide (attribute flag ∈ seen)))
         required_flags).
Proof.
  unfold parser, required_flags.
  rewrite !required_actions_add, !map_filter_cons.
  rewrite <- !app_assoc.
  assert (H : required_actions ArgumentParser seen = [])
    by (unfold required_actions; simpl; now rewrite andb_false_r).
  rewrite H. cbn [List.filter map app]. repeat f_equal. now destruct (negb _).
Qed.

End WellFormed.

Lemma gives_flags W l fvs :
  Forall2 (fun a fv => gives W a (fst fv) (snd fv)) l fvs ->
  Forall (fun fv => In (fst fv) required_flags) fvs.
Proof. induction 1 as [|a fv l fvs [H _] _ IH]; constructor; assumption. Qed.

Ltac given :=
  repeat (apply List.Forall2_cons;
          [split; [in_list|cbn [fst snd]; repeat split;
                            first [reflexivity|discriminate]]|]);
  apply List.Forall2_nil.

(** The parse of a command line made of assignments. *)
Lemma parse_command_line W l fvs :
  Forall2 (fun a fv => gives W a (fst fv) (snd fv)) l fvs ->
  Argparse.parse_args W parser (command_line l)
  = match missing fvs with
    | [] => Parsed (namespace (fold_left stored fvs (initial_state parser)))
    | (_ :: _) as flags =>
        Usage (arguments_required (map (fun flag => [flag]) flags))
    end.
Proof.
  intros Hl. pose proof (gives_flags W l fvs Hl) as Hflags.
  destruct (command_line_items W l fvs Hl) as (pats & Hpats & _ & Hcons).
  unfold Argparse.parse_args. rewrite Hpats, Hcons.
  rewrite required_actions_parser, fold_stored_extras.
  assert (Hm : List.filter
                 (fun flag => negb (bool_decide
                    (attribute flag ∈ seen_actions
                       (fold_left stored fvs (initial_state parser)))))
                 required_flags = missing fvs).
  { unfold missing. apply filter_ext_in. intros flag Hflag.
    pose proof (fold_stored_seen fvs flag Hflag Hflags (initial_state parser)) as Hs.
    destruct (last_given fvs flag) as [v|].
    - rewrite bool_decide_eq_true_2; [reflexivity|]. apply Hs. left. discriminate.
    - rewrite bool_decide_eq_false_2; [reflexivity|]. intros Hin.
      apply Hs in Hin as [?|Hin]; [congruence|].
      simpl in Hin. now apply not_elem_of_empty in Hin. }
  rewrite Hm. destruct (missing fvs); reflexivity.
Qed.

(** X1. A command line that gives every required flag a value, in any
    order and any number of times, is parsed into a namespace in which every
    attribute holds the value given last to its flag. Each flag may be
    written in full or in an abbreviation that fits no other option; its
    value stands in the next argument string (one that does not start with
    [-]) or after [=] (anything but [--]); the port is converted by
    [int]. *)
Theorem command_line_parsed W l fvs :
  Forall2 (fun a fv => gives W a (fst fv) (snd fv)) l fvs ->
  missing fvs = [] ->
  exists args,
    Argparse.parse_args W parser (command_line l) = Parsed args
    /\ forall flag, In flag required_flags ->
         last_given fvs flag <> None
         /\ args !! attribute flag = last_given fvs flag.
Proof.
  intros Hl Hm. rewrite (parse_command_line W l fvs Hl), Hm.
  eexists. split; [reflexivity|]. intros flag Hflag.
  assert (Hg : last_given fvs flag <> None).
  { intros Hn. unfold missing in Hm.
    assert (Hin : In flag (List.filter (fun flag => match last_given fvs flag with
                                         | Some _ => false | None => true end)
                        required_flags))
      by (apply filter_In; split; [assumption|now rewrite Hn]).
    rewrite Hm in Hin. destruct Hin. }
  split; [assumption|].
  rewrite (fold_stored_namespace fvs flag Hflag (gives_flags W l fvs Hl)).
  destruct (last_given fvs flag); [reflexivity|congruence].
Qed.

Lemma command_line_parsed_witness :
  exists args,
    Argparse.parse_args (peer 7 None None None None) parser
      [ "--body=-- Hello"; "--smtp_s"; "mail.example.com"; "--smtp_port=465";
        "--smtp_user"; "a@example.com"; "--smtp_pa"; "secret";
        "--f"; "a@example.com"; "--to_email="; "--subject"; "Hi";
        "--to_email"; "b@example.com" ] = Parsed args
    /\ args !! "body" = Some (PyStr "-- Hello")
    /\ args !! "smtp_port" = Some (PyInt 465)
    /\ args !! "to_email" = Some (PyStr "b@example.com").
Proof.
  destruct (command_line_parsed (peer 7 None None None None)
    [ Joined "--body" "-- Hello"; Separate "--smtp_s" "mail.example.com";
      Joined "--smtp_port" "465"; Separate "--smtp_user" "a@example.com";
      Separate "--smtp_pa" "secret"; Separate "--f" "a@example.com";
      Joined "--to_email" EmptyString; Separate "--subject" "Hi";
      Separate "--to_email" "b@example.com" ]
    [ ("--body", PyStr "-- Hello"); ("--smtp_server", PyStr "mail.example.com");
      ("--smtp_port", PyInt 465); ("--smtp_user", PyStr "a@example.com");
      ("--smtp_password", PyStr "secret"); ("--from_email", PyStr "a@example.com");
      ("--to_email", PyStr EmptyString); ("--subject", PyStr "Hi");
      ("--to_email", PyStr "b@example.com") ]) as (args & Hp & Hv).
  - given.
  - reflexivity.
  - exists args. split; [exact Hp|].
    split; [|split].
    + apply (Hv "--body"). in_list.
    + apply (Hv "--smtp_port"). in_list.
    + apply (Hv "--to_email"). in_list.
Defined.

(** X2. When such a command line leaves required flags without a value,
    the run ends in the usage error that names exactly those flags, in the
    order of their declaration: status 2, nothing on standard output, no
    call into [smtplib]. *)
Theorem command_line_incomplete W l fvs :
  Forall2 (fun a fv => gives W a (fst fv) (snd fv)) l fvs ->
  missing fvs <> [] ->
  Argparse.parse_args W parser (command_line l)
  = Usage (arguments_required (map (fun flag => [flag]) (missing fvs)))
  /\ run W (command_line l)
     = usage_exit (arguments_required (map (fun flag => [flag]) (missing fvs))).
Proof.
  intros Hl Hm.
  assert (Hp : Argparse.parse_args W parser (command_line l)
               = Usage (arguments_required (map (fun flag => [flag]) (missing fvs)))).
  { rewrite (parse_command_line W l fvs Hl). now destruct (missing fvs). }
  split; [exact Hp|]. now apply run_Usage.
Qed.

Lemma command_line_incomplete_witness :
  run (peer 7 None None None None)
    [ "--subject"; "Hi"; "--smtp_port=465"; "--smtp_server"; "mail.example.com" ]
  = usage_exit
      (arguments_required
         [ ["--smtp_user"]; ["--smtp_password"]; ["--from_email"];
           ["--to_email"]; ["--body"] ]).
Proof.
  refine (proj2 (command_line_incomplete (peer 7 None None None None)
    [ Separate "--subject" "Hi"; Joined "--smtp_port" "465";
      Separate "--smtp_server" "mail.example.com" ]
    [ ("--subject", PyStr "Hi"); ("--smtp_port", PyInt 465);
      ("--smtp_server", PyStr "mail.example.com") ] _ _)).
  - given.
  - discriminate.
Defined.

(** ** Command lines that go on after one that is parsed *)

Section Extensions.

Variable W : World.

Lemma not_Parsed_ends argv :
  (forall args, Argparse.parse_args W parser argv <> Parsed args) ->
  ends_in_parse_args W argv
  /\ (asks_help argv = false -> exists e, run W argv = usage_exit e).
Proof.
  intros Hn. unfold ends_in_parse_args.
  destruct (Argparse.parse_args W parser argv) as [args| |e] eqn:Hp.
  - now destruct (Hn args).
  - rewrite (run_Help W argv Hp). split; [now right|].
    rewrite (Help_asked W argv Hp). discriminate.
  - rewrite (run_Usage W argv e Hp). split; [left|intros _]; now exists e.
Qed.

Lemma required_actions_mono (p : list Action) seen seen' :
  seen ⊆ seen' -> required_actions p seen = [] -> required_actions p seen' = [].
Proof.
  intros Hsub. unfold required_actions. induction p as [|a p IH]; simpl; [auto|].
  intros H. apply app_eq_nil in H as [Ha Hp]. rewrite IH by assumption.
  rewrite app_nil_r. destruct (required a); [|now rewrite andb_false_r].
  rewrite andb_true_r in *. destruct (bool_decide (dest a ∈ seen)) eqn:Hd;
    [|discriminate Ha].
  apply bool_decide_eq_true in Hd. rewrite bool_decide_eq_true_2; [reflexivity|].
  now apply Hsub.
Qed.

(** A command line that is parsed into a namespace, with more argument
    strings after it: the loop goes on from the state it had reached. *)
Lemma parse_args_app argv more args :
  Argparse.parse_args W parser argv = Parsed args ->
  exists st,
    namespace st = args /\ extras st = []
    /\ required_actions parser (seen_actions st) = []
    /\ Argparse.parse_args W parser (argv ++ more)
       = match arg_strings_pattern W parser more with
         | inl e => Usage e
         | inr pm =>
             match consume W parser (combine more pm) st with
             | Error e => Usage e
             | HelpExit => Help
             | Continue st' =>
                 match required_actions parser (seen_actions st') with
                 | (_ :: _) as names => Usage (arguments_required names)
                 | [] =>
                     match extras st' with
                     | (_ :: _) as argv => Usage (unrecognized_arguments argv)
                     | [] => Parsed (namespace st')
                     end
                 end
             end
         end.
Proof.
  intros Hp.
  destruct (parse_args_Parsed W argv args Hp)
    as (pats & st & Hpats & Hcons & Hreq & Hex & ->).
  exists st. repeat (split; [solve [auto]|]).
  unfold Argparse.parse_args.
  rewrite arg_strings_pattern_app
    by (intros Hin; exact (dashes_not_Parsed W argv _ Hin Hp)).
  rewrite Hpats. destruct (arg_strings_pattern W parser more) as [|pm]; [reflexivity|].
  rewrite combine_app_same
    by (symmetry; eapply arg_strings_pattern_length; eassumption).
  rewrite (consume_app W parser (length (combine argv pats)) _ _ _ st) by auto.
  reflexivity.
Qed.

End Extensions.

(** X3. A flag given once more, after a command line that is parsed,
    replaces the value of its own attribute and leaves the other attributes
    as they were. *)
Theorem later_value_wins W argv args a flag v :
  Argparse.parse_args W parser argv = Parsed args ->
  gives W a flag v ->
  Argparse.parse_args W parser (argv ++ words a)
  = Parsed (<[ attribute flag := v ]> args).
Proof.
  intros Hp Ha.
  destruct (parse_args_app W argv (words a) args Hp)
    as (st & <- & Hex & Hreq & ->).
  destruct (assignment_items W a flag v Ha) as (pa & -> & _ & Hc).
  specialize (Hc [] st). rewrite app_nil_r in Hc. rewrite Hc.
  cbn [consume stored seen_actions namespace extras fst snd].
  rewrite (required_actions_mono parser (seen_actions st));
    [|apply union_subseteq_r|assumption].
  now rewrite Hex.
Qed.

Lemma later_value_wins_witness :
  Argparse.parse_args (peer 7 None None None None) parser
    (argv_example ++ ["--su=Bye"])
  = Parsed (<[ "subject" := PyStr "Bye" ]> args_example).
Proof.
  refine (later_value_wins (peer 7 None None None None) argv_example
            args_example (Joined "--su" "Bye") "--subject" (PyStr "Bye") _ _).
  - vm_compute. reflexivity.
  - split; [in_list|]. repeat split; first [reflexivity|discriminate].
Defined.

(** X4. A word that does not start with [-] and follows a command line
    that is parsed is left over: when it is the last word, the run ends in
    the usage error of unrecognized arguments that names it; whatever
    follows it, the run ends inside [parse_args]. *)
Theorem stray_word_rejected W argv args x :
  Argparse.parse_args W parser argv = Parsed args ->
  startswith x "-" = false ->
  run W (argv ++ [x]) = usage_exit (unrecognized_arguments [x])
  /\ forall rest, ends_in_parse_args W (argv ++ x :: rest).
Proof.
  intros Hp Hx. destruct (parse_optional_plain W parser x Hx) as [Hd Hpos].
  split.
  - apply run_Usage.
    destruct (parse_args_app W argv [x] args Hp) as (st & _ & Hex & Hreq & ->).
    cbn [arg_strings_pattern]. destruct (String.eqb_spec x "--") as [|_]; [contradiction|].
    rewrite Hpos. cbn [arg_strings_pattern combine consume add_extra seen_actions extras].
    rewrite Hreq, Hex. reflexivity.
  - intros rest. apply not_Parsed_ends. intros args'.
    destruct (parse_args_app W argv (x :: rest) args Hp) as (st & _ & Hex & Hreq & ->).
    cbn [arg_strings_pattern]. destruct (String.eqb_spec x "--") as [|_]; [contradiction|].
    rewrite Hpos.
    destruct (arg_strings_pattern W parser rest) as [|pr]; [discriminate|].
    cbn [combine consume].
    destruct (consume W parser (combine rest pr) (add_extra x st)) as [st'| |] eqn:Hc;
      try discriminate.
    apply consume_extras in Hc; [|simpl; now destruct (extras st)].
    destruct (required_actions parser (seen_actions st')); [|discriminate].
    destruct (extras st'); [contradiction|discriminate].
Qed.

Lemma stray_word_rejected_witness :
  run (peer 7 None None None None) (argv_example ++ ["now"])
  = usage_exit (unrecognized_arguments ["now"]).
Proof.
  refine (proj1 (stray_word_rejected (peer 7 None None None None) argv_example
                   args_example "now" _ _)).
  - vm_compute. reflexivity.
  - reflexivity.
Defined.

(** ** Argument strings that start with a dash *)

Section DashFacts.

Variable W : World.
Variable p : list Action.

(** How an argument string of two characters or more that starts with
    [-] and is no option string itself is read: as the option in front of
    its [=], or by the options it abbreviates. *)
Lemma parse_optional_dash tok :
  startswith tok "-" = true ->
  lookup_option (option_string_actions p) tok = None ->
  tok <> "-" ->
  (exists l r a,
     split_eq tok = Some (l, r)
     /\ lookup_option (option_string_actions p) l = Some a
     /\ _parse_optional W p tok = optional (Tuple (Some a) l (Some r)))
  \/ _parse_optional W p tok
     = match _get_option_tuples p tok with
       | inl e => classify_error e
       | inr ((_ :: _ :: _) as option_tuples) =>
           classify_error
             (ambiguous_option tok (map tuple_option_string option_tuples))
       | inr [t] => optional t
       | inr [] =>
           if negative_number_like W tok
              && negb (_has_negative_number_optionals W p)
           then positional
           else if contains " " tok then positional
           else optional (Tuple None tok None)
       end.
Proof.
  intros Hs Hl Hne. destruct tok as [|c0 rest]; [discriminate|].
  simpl in Hs. rewrite andb_true_r in Hs. apply Ascii.eqb_eq in Hs. subst c0.
  assert (Hlen : (String.length (String "-" rest) =? 1)%nat = false)
    by (destruct rest; [congruence|reflexivity]).
  unfold _parse_optional. rewrite Hl, Hlen.
  change (negb (prefix_chars "-")) with false. cbv iota.
  destruct (split_eq (String "-" rest)) as [[l r]|]; [|now right].
  destruct (lookup_option (option_string_actions p) l) as [a|] eqn:Hl';
    [|now right].
  left. exists l, r, a. auto.
Qed.

End DashFacts.

Section HelpFacts.

Variable W : World.

(** An argument string that starts with [-h] is read as the help
    option. *)
Lemma parse_optional_h tail :
  exists a os e,
    class a = help
    /\ _parse_optional W parser (String "-" (String "h" tail))
       = optional (Tuple (Some a) os e).
Proof.
  destruct tail as [|c t].
  - eexists _, _, _. split; [|vm_compute; reflexivity]. reflexivity.
  - set (tok := String "-" (String "h" (String c t))).
    destruct (parse_optional_dash W parser tok) as [(l & r & a & Hs & Hl & ->)| ->];
      try (vm_compute; reflexivity); try discriminate.
    + exists a, l, (Some r). split; [|reflexivity].
      apply split_eq_app in Hs. apply lookup_option_In in Hl.
      assert (H2 : startswith (l ++ "=" ++ r) "-h" = true)
        by (rewrite <- Hs; reflexivity).
      option_cases Hl; first [reflexivity|discriminate H2].
    + eexists _, _, _. split; [|vm_compute; reflexivity]. reflexivity.
Qed.

(** So is one whose part in front of the [=] abbreviates [--help]. *)
Lemma parse_optional_help tok :
  spells "--help" tok = true ->
  exists a os e,
    class a = help
    /\ _parse_optional W parser tok = optional (Tuple (Some a) os e).
Proof.
  unfold spells. change (startswith "--help" "--") with true. cbv iota.
  intros H. apply andb_prop in H as [Hlen Hpre].
  apply startswith_prefixes in Hpre. unfold before_eq in *.
  destruct (split_eq tok) as [[l r]|] eqn:Hs.
  - apply split_eq_app in Hs. subst tok. simpl in Hpre.
    repeat (destruct Hpre as [Heq|Hpre];
      [subst l; first [discriminate Hlen
                      |eexists _, _, _; split; [|vm_compute; reflexivity]; reflexivity]|]).
    destruct Hpre.
  - simpl in Hpre.
    repeat (destruct Hpre as [Heq|Hpre];
      [subst tok; first [discriminate Hlen
                        |eexists _, _, _; split; [|vm_compute; reflexivity]; reflexivity]|]).
    destruct Hpre.
Qed.

Lemma parse_optional_asks tok :
  spells "-h" tok || spells "--help" tok = true ->
  exists a os e,
    class a = help
    /\ _parse_optional W parser tok = optional (Tuple (Some a) os e).
Proof.
  intros H. apply orb_prop in H as [H|H]; [|now apply parse_optional_help].
  unfold spells in H. change (startswith "-h" "--") with false in H. cbv iota in H.
  destruct tok as [|c0 [|c1 tail]]; try discriminate H.
  - cbn [startswith] in H. apply andb_prop in H as [_ H]. discriminate H.
  - cbn [startswith] in H. apply andb_prop in H as [H0 H].
  apply andb_prop in H as [H1 _].
  apply Ascii.eqb_eq in H0, H1. subst c0 c1. apply parse_optional_h.
Qed.

(** A command line that asks for the help in any spelling is never parsed
    into a namespace. *)
Lemma help_not_Parsed argv args :
  asks_help argv = true -> Argparse.parse_args W parser argv <> Parsed args.
Proof.
  intros Hask Hp.
  assert (Hd : ~ In "--" argv) by (intros Hin; exact (dashes_not_Parsed W argv _ Hin Hp)).
  destruct (parse_args_Parsed W argv args Hp)
    as (pats & st & Hpats & Hcons & _ & _ & _).
  unfold asks_help in Hask. apply existsb_exists in Hask as (tok & Hin & Hsp).
  apply in_split in Hin as (l1 & l2 & ->).
  destruct (items_split W parser l1 tok l2 pats) as (p1 & pat & p2 & _ & _ & Heq & Hpat);
    [intros H; apply Hd, in_app_iff; now left
    |intros ->; apply Hd, in_app_iff; right; now left
    |assumption|].
  destruct (parse_optional_asks tok Hsp) as (a & os & e & Ha & Hc).
  rewrite Heq in Hcons.
  apply (consume_reaches W parser (length (combine l1 p1))) in Hcons;
    [|lia|destruct pat; [congruence|discriminate|contradiction]].
  destruct Hcons as [st1 Hcons].
  destruct pat as [|t|]; [congruence| |contradiction].
  rewrite Hc in Hpat. injection Hpat as <-.
  now apply consume_help in Hcons.
Qed.

End HelpFacts.

(** ** Command lines that never get past parse_args *)

(** X5. A command line that asks for the help in any spelling (an
    argument string that starts with [-h], or whose option part abbreviates
    [--help]), wherever it stands, never gets past [parse_args]: the run
    prints the help or a usage error, and no call into [smtplib] is made. *)
Theorem help_sends_nothing W argv :
  asks_help argv = true ->
  ends_in_parse_args W argv /\ calls (run W argv) = [].
Proof.
  intros Hask.
  assert (H : ends_in_parse_args W argv).
  { apply not_Parsed_ends. intros args. now apply help_not_Parsed. }
  split; [exact H|]. destruct H as [[e ->]| ->]; reflexivity.
Qed.

Lemma help_sends_nothing_witness :
  calls (run (peer 7 None None None None) (argv_example ++ ["--he"])) = [].
Proof.
  refine (proj2 (help_sends_nothing (peer 7 None None None None)
                   (argv_example ++ ["--he"]) _)).
  reflexivity.
Defined.

(** X6. The parser has no positional arguments, so a command line with
    the argument [--] never gets past [parse_args]: the [--] and what follows
    it are left over. *)
Theorem dashes_rejected W argv :
  In "--" argv -> ends_in_parse_args W argv /\ calls (run W argv) = [].
Proof.
  intros Hin.
  assert (H : ends_in_parse_args W argv).
  { apply not_Parsed_ends. intros args. now apply dashes_not_Parsed. }
  split; [exact H|]. destruct H as [[e ->]| ->]; reflexivity.
Qed.

Lemma dashes_rejected_witness :
  calls (run (peer 7 None None None None) (argv_example ++ ["--"])) = [].
Proof.
  refine (proj2 (dashes_rejected (peer 7 None None None None)
                   (argv_example ++ ["--"]) _)).
  apply in_app_iff. right. now left.
Defined.

Section ValueFacts.

Variable W : World.

Lemma take_action_invalid st action s os :
  class action = store -> type_ action = int ->
  s <> "--" -> py_int W s = None ->
  take_action W st (action, [s], os)
  = Error (invalid_value (option_strings action) int s).
Proof.
  intros Hc Hty Hs Hi. unfold take_action, _get_values. simpl.
  destruct (String.eqb_spec s "--") as [|_]; [contradiction|].
  rewrite Hc. unfold _get_value. now rewrite Hty, Hi.
Qed.

(** A word that is like an option is not read as a value. *)
Lemma option_like_not_positional p s :
  option_like W s = true -> _parse_optional W p s <> positional.
Proof.
  unfold option_like. intros H.
  apply andb_prop in H as [H Hsp]. apply andb_prop in H as [H Hneg].
  apply andb_prop in H as [Hs Hne].
  apply negb_true_iff in Hsp, Hneg, Hne. apply String.eqb_neq in Hne.
  destruct (lookup_option (option_string_actions p) s) as [a|] eqn:Hl.
  - destruct s as [|c0 rest]; [discriminate|]. unfold _parse_optional.
    simpl in Hs. rewrite andb_true_r in Hs. apply Ascii.eqb_eq in Hs. subst c0.
    change (negb (prefix_chars "-")) with false. cbv iota. now rewrite Hl.
  - destruct (parse_optional_dash W p s Hs Hl Hne)
      as [(l & r & a & _ & _ & ->)| ->]; [discriminate|].
    destruct (_get_option_tuples p s) as [|[|t [|t' ts]]]; try discriminate.
    rewrite Hneg, Hsp. discriminate.
Qed.

End ValueFacts.

(** X7. A port that [int] does not convert is never accepted, wherever
    the flag stands on the command line, written in full or abbreviated,
    with the value in the next argument string or after [=]: the run ends
    inside [parse_args], with no call into [smtplib]. *)
Theorem port_must_be_integer W pre a o s post :
  a = Separate o s /\ startswith s "-" = false
  \/ a = Joined o s /\ s <> "--" ->
  abbreviates o "--smtp_port" = true ->
  py_int W s = None ->
  ends_in_parse_args W (pre ++ words a ++ post)
  /\ calls (run W (pre ++ words a ++ post)) = [].
Proof.
  intros Ha Hab Hint.
  assert (H : ends_in_parse_args W (pre ++ words a ++ post)).
  { apply not_Parsed_ends. intros args Hp.
    assert (Hd : ~ In "--" (pre ++ words a ++ post))
      by (intros Hin; exact (dashes_not_Parsed W _ _ Hin Hp)).
    destruct (parse_args_Parsed W _ args Hp)
      as (pats & st & Hpats & Hcons & _ & _ & _).
    destruct (parse_optional_flag W o "--smtp_port") as
      (action & Hl & Hc & _ & _ & Ho & Hpo & Hjoined); [in_list|assumption|].
    vm_compute in Hl. injection Hl as <-.
    destruct Ha as [[-> Hs]|[-> Hs]]; cbn [words app] in *.
    - destruct (items_split W parser pre o (s :: post) pats)
        as (p1 & pat & p2 & _ & H2 & Heq & Hpat);
        [intros Hin; apply Hd, in_app_iff; now left|assumption|assumption|].
      destruct pat as [|t|]; [congruence| |contradiction].
      rewrite Hpo in Hpat. injection Hpat as <-.
      destruct (parse_optional_plain W parser s Hs) as [Hs' Hps].
      cbn [arg_strings_pattern] in H2.
      destruct (String.eqb_spec s "--") as [|_]; [contradiction|].
      rewrite Hps in H2.
      destruct (arg_strings_pattern W parser post) as [|pp]; [discriminate|].
      injection H2 as <-. rewrite Heq in Hcons.
      apply (consume_reaches W parser (length (combine pre p1))) in Hcons;
        [|lia|discriminate].
      destruct Hcons as [st1 Hcons]. cbn [combine] in Hcons.
      rewrite consume_store in Hcons by reflexivity.
      rewrite take_action_invalid in Hcons by auto. discriminate.
    - destruct (Hjoined s) as [Hne Hpj].
      destruct (items_split W parser pre (o ++ "=" ++ s) post pats)
        as (p1 & pat & p2 & _ & H2 & Heq & Hpat);
        [intros Hin; apply Hd, in_app_iff; now left|assumption|assumption|].
      destruct pat as [|t|]; [congruence| |contradiction].
      rewrite Hpj in Hpat. injection Hpat as <-. rewrite Heq in Hcons.
      apply (consume_reaches W parser (length (combine pre p1))) in Hcons;
        [|lia|discriminate].
      destruct Hcons as [st1 Hcons].
      rewrite consume_store in Hcons by reflexivity.
      rewrite take_action_invalid in Hcons by auto. discriminate. }
  split; [exact H|]. destruct H as [[e ->]| ->]; reflexivity.
Qed.

Lemma port_must_be_integer_witness :
  calls (run (peer 7 None None None None)
           [ "--smtp_server"; "mail.example.com"; "--smtp_po=smtps";
             "--smtp_user"; "a@example.com" ]) = [].
Proof.
  refine (proj2 (port_must_be_integer (peer 7 None None None None)
            ["--smtp_server"; "mail.example.com"]
            (Joined "--smtp_po" "smtps") "--smtp_po" "smtps"
            ["--smtp_user"; "a@example.com"] _ _ _)).
  - right. split; [reflexivity|discriminate].
  - reflexivity.
  - reflexivity.
Defined.

(** X8. A required flag with no value after it, because the command
    line ends there or because the next word is like an option, is never
    accepted. At the end of a command line that is parsed without it, the
    usage error is the one of the missing argument of that flag. *)
Theorem flag_needs_value W pre o flag post :
  In flag required_flags ->
  abbreviates o flag = true ->
  post = [] \/ (exists nxt rest, post = nxt :: rest /\ option_like W nxt = true) ->
  ends_in_parse_args W (pre ++ o :: post)
  /\ calls (run W (pre ++ o :: post)) = []
  /\ forall args,
       post = [] -> Argparse.parse_args W parser pre = Parsed args ->
       run W (pre ++ o :: post) = usage_exit (expected_one_argument [flag]).
Proof.
  intros Hflag Hab Hpost.
  destruct (parse_optional_flag W o flag Hflag Hab)
    as (action & Hl & Hc & _ & Hos & Ho & Hpo & _).
  assert (H : ends_in_parse_args W (pre ++ o :: post)).
  { apply not_Parsed_ends. intros args Hp.
    assert (Hd : ~ In "--" (pre ++ o :: post))
      by (intros Hin; exact (dashes_not_Parsed W _ _ Hin Hp)).
    destruct (parse_args_Parsed W _ args Hp)
      as (pats & st & Hpats & Hcons & _ & _ & _).
    destruct (items_split W parser pre o post pats)
      as (p1 & pat & p2 & _ & H2 & Heq & Hpat);
      [intros Hin; apply Hd, in_app_iff; now left|assumption|assumption|].
    destruct pat as [|t|]; [congruence| |contradiction].
    rewrite Hpo in Hpat. injection Hpat as <-. rewrite Heq in Hcons.
    apply (consume_reaches W parser (length (combine pre p1))) in Hcons;
      [|lia|discriminate].
    destruct Hcons as [st1 Hcons].
    rewrite consume_store in Hcons by assumption.
    destruct Hpost as [->|(nxt & rest & -> & Hn)]; [discriminate Hcons|].
    cbn [arg_strings_pattern] in H2.
    destruct (String.eqb_spec nxt "--") as [->|_].
    - apply Hd, in_app_iff. right. right. now left.
    - pose proof (option_like_not_positional W parser nxt Hn) as Hnp.
      destruct (_parse_optional W parser nxt); [congruence| |discriminate];
        (destruct (arg_strings_pattern W parser rest); [discriminate|]);
        injection H2 as <-; discriminate Hcons. }
  split; [exact H|]. split; [destruct H as [[e ->]| ->]; reflexivity|].
  intros args -> Hp. apply run_Usage.
  destruct (parse_args_app W pre [o] args Hp) as (st & _ & _ & _ & ->).
  cbn [arg_strings_pattern].
  destruct (String.eqb_spec o "--") as [|_]; [contradiction|].
  rewrite Hpo. cbn [combine]. rewrite consume_store by assumption.
  now rewrite Hos.
Qed.

Lemma flag_needs_value_witness :
  calls (run (peer 7 None None None None)
           [ "--subject"; "Hi"; "--body"; "-hello"; "--smtp_port"; "465" ]) = [].
Proof.
  refine (proj1 (proj2 (flag_needs_value (peer 7 None None None None)
            ["--subject"; "Hi"] "--body" "--body"
            ["-hello"; "--smtp_port"; "465"] _ _ _))).
  - in_list.
  - reflexivity.
  - right. exists "-hello", ["--smtp_port"; "465"]. split; reflexivity.
Defined.

(** An argument string whose option part abbreviates two options or more
    is an error of the parser. *)
Lemma parse_optional_ambiguous W tok :
  ambiguous tok = true ->
  exists e, _parse_optional W parser tok = classify_error e.
Proof.
  unfold ambiguous. intros H.
  apply andb_prop in H as [H Hm]. apply andb_prop in H as [Hs Hne].
  assert (Hex : exists o, In o (map fst (option_string_actions parser))
                          /\ startswith o (before_eq tok) = true).
  { destruct (matches (before_eq tok)) as [|o m] eqn:Hmatch; [discriminate Hm|].
    assert (Hin : In o (matches (before_eq tok))) by (rewrite Hmatch; now left).
    unfold matches in Hin. apply filter_In in Hin. now exists o. }
  destruct Hex as (o & Hin & Hpre). apply startswith_prefixes in Hpre.
  unfold before_eq in *.
  rewrite osa_parser in Hin. simpl in Hin.
  destruct (split_eq tok) as [[l r]|] eqn:Hsplit.
  - apply split_eq_app in Hsplit. subst tok.
    repeat (destruct Hin as [<-|Hin]; [
      simpl in Hpre;
      repeat (destruct Hpre as [Heq|Hpre]; [
        subst l; vm_compute in Hm;
        first [ discriminate Hm | discriminate Hs
              | eexists; vm_compute; reflexivity ] |]);
      destruct Hpre |]).
    destruct Hin.
  - repeat (destruct Hin as [<-|Hin]; [
      simpl in Hpre;
      repeat (destruct Hpre as [Heq|Hpre]; [
        subst tok; vm_compute in Hm;
        first [ discriminate Hm | discriminate Hs | discriminate Hne
              | eexists; vm_compute; reflexivity ] |]);
      destruct Hpre |]).
    destruct Hin.
Qed.

(** X9. An argument string in front of any [--] whose option part
    abbreviates two options or more makes the whole command line a usage
    error, also when the help is asked for in front of it: all argument
    strings are classified before the first action runs. *)
Theorem ambiguous_abbreviation W pre tok post :
  ~ In "--" pre ->
  ambiguous tok = true ->
  exists e, run W (pre ++ tok :: post) = usage_exit e.
Proof.
  intros Hd Ha.
  assert (Hne : tok <> "--").
  { intros ->. discriminate Ha. }
  destruct (parse_optional_ambiguous W tok Ha) as [e He].
  assert (Hp : exists e', Argparse.parse_args W parser (pre ++ tok :: post) = Usage e').
  { unfold Argparse.parse_args. rewrite arg_strings_pattern_app by assumption.
    destruct (arg_strings_pattern W parser pre) as [e'|p1]; [now exists e'|].
    cbn [arg_strings_pattern].
    destruct (String.eqb_spec tok "--") as [|_]; [contradiction|].
    rewrite He. now exists e. }
  destruct Hp as [e' Hp]. exists e'. now apply run_Usage.
Qed.

Lemma ambiguous_abbreviation_witness :
  exists e,
    run (peer 7 None None None None) ["--help"; "--smtp_p=465"; "--body"; "Hello"]
    = usage_exit e.
Proof.
  refine (ambiguous_abbreviation (peer 7 None None None None) ["--help"]
            "--smtp_p=465" ["--body"; "Hello"] _ _).
  - intros [H|[]]. discriminate H.
  - reflexivity.
Defined.

(** ** Where the values come from *)

Section ValuesInvariant.

Variable W : World.
Variable p : list Action.

(** An invariant of the parse state that every stored value keeps, when
    the values are known by where they stand: after the [=] of the option,
    or in a plain argument string. *)
Lemma consume_invariant_values (I : parse_state -> Prop)
    (R : Action -> string -> Prop) :
  (forall st s, I st -> I (add_extra s st)) ->
  (forall st a v os st',
     R a v -> class a = store -> I st ->
     take_action W st (a, [v], os) = Continue st' -> I st') ->
  forall n items,
    (length items <= n)%nat ->
    (forall tok a os e,
       In (tok, O (Tuple (Some a) os (Some e))) items -> class a = store -> R a e) ->
    (forall tok a os v,
       In (tok, O (Tuple (Some a) os None)) items -> In (v, A) items -> R a v) ->
    forall st st', I st -> consume W p items st = Continue st' -> I st'.
Proof.
  intros Hextra Htake. induction n as [|n IH]; intros items Hlen HE HA st st' HI.
  - destruct items; [|simpl in Hlen; lia]. now intros [= <-].
  - destruct items as [|[s pat] rest]; [now intros [= <-]|].
    simpl in Hlen.
    assert (HErest : forall tok a os e,
              In (tok, O (Tuple (Some a) os (Some e))) rest -> class a = store -> R a e)
      by (intros; eapply HE; [right|]; eassumption).
    assert (HArest : forall tok a os v,
              In (tok, O (Tuple (Some a) os None)) rest -> In (v, A) rest -> R a v)
      by (intros; eapply HA; right; eassumption).
    destruct pat as [|[[a|] os e]|].
    + simpl. apply IH; [lia|assumption|assumption|auto].
    + destruct (class a) eqn:Hc.
      * rewrite consume_store by assumption.
        destruct e as [v|].
        -- destruct (take_action W st (a, [v], os)) as [st1| |] eqn:Ht;
             try discriminate.
           apply IH; [lia|assumption|assumption|].
           eapply Htake; [|exact Hc|exact HI|exact Ht].
           eapply HE; [now left|exact Hc].
        -- destruct rest as [|[v [| |]] rest']; try discriminate.
           destruct (take_action W st (a, [v], os)) as [st1| |] eqn:Ht;
             try discriminate.
           simpl in Hlen. apply IH; [lia| | |].
           ++ intros; eapply HErest; [right|]; eassumption.
           ++ intros; eapply HArest; right; eassumption.
           ++ eapply Htake; [|exact Hc|exact HI|exact Ht].
              eapply HA; [now left|right; now left].
      * intros Hcont. now apply consume_help in Hcont.
    + simpl. apply IH; [lia|assumption|assumption|auto].
    + simpl. apply IH; [lia|assumption|assumption|auto].
Qed.

End ValuesInvariant.

Section Provenance.

Variable W : World.

(** The value an option that stores is read with stands after the first
    [=] of its argument string. *)
Lemma parse_optional_explicit tok a os e :
  _parse_optional W parser tok = optional (Tuple (Some a) os (Some e)) ->
  class a = store ->
  exists l, split_eq tok = Some (l, e).
Proof.
  intros Hp Hc.
  assert (Hs : startswith tok "-" = true).
  { destruct tok as [|c0 rest]; [discriminate|]. unfold _parse_optional in Hp.
    simpl. unfold prefix_chars in Hp. rewrite Ascii.eqb_sym.
    destruct (Ascii.eqb c0 "-"); [reflexivity|discriminate]. }
  assert (Hl : lookup_option (option_string_actions parser) tok = None).
  { destruct (lookup_option (option_string_actions parser) tok) eqn:Hl;
      [|reflexivity].
    destruct tok as [|c0 rest]; [discriminate|]. unfold _parse_optional in Hp.
    rewrite Hl in Hp. destruct (negb (prefix_chars c0)); discriminate. }
  assert (Hne : tok <> "-").
  { intros ->. vm_compute in Hp. discriminate. }
  destruct (parse_optional_dash W parser tok Hs Hl Hne)
    as [(l & r & a' & Hsplit & _ & Heq)|Heq]; rewrite Heq in Hp.
  - injection Hp as _ _ ->. now exists l.
  - destruct (_get_option_tuples parser tok) as [|[|t [|t' ts]]] eqn:Ht;
      try discriminate.
    { destruct (_ && _); [discriminate|].
      destruct (contains _ _); discriminate. }
    injection Hp as ->.
    destruct tok as [|c0 [|c1 tail]]; try discriminate.
    unfold _get_option_tuples in Ht.
    remember (option_string_actions parser) as m eqn:Hm.
    destruct (prefix_chars c0 && prefix_chars c1).
    + destruct (split_eq (String c0 (String c1 tail))) as [[l r]|];
        injection Ht as Ht;
        match type of Ht with
        | ?fm = _ => assert (Hin : In (Tuple (Some a) os (Some e)) fm)
                       by (rewrite Ht; now left)
        end;
        apply in_flat_map in Hin as ([o a0] & _ & Hin);
        match type of Hin with
        | In _ (if ?c then _ else _) => destruct c; [|destruct Hin]
        end.
      * destruct Hin as [[= _ _ ->]|[]]. now exists l.
      * destruct Hin as [[=]|[]].
    + destruct (prefix_chars c0 && negb (prefix_chars c1)); [|discriminate].
      injection Ht as Ht.
      match type of Ht with
      | ?fm = _ => assert (Hin : In (Tuple (Some a) os (Some e)) fm)
                     by (rewrite Ht; now left)
      end.
      apply in_flat_map in Hin as ([o a0] & Hoa & Hin).
      destruct (String.eqb_spec o (String c0 (String c1 EmptyString))) as [Ho|_].
      * destruct Hin as [[= -> _ _]|[]].
        rewrite Hm in Hoa.
        option_cases Hoa; try discriminate Ho. discriminate Hc.
      * match type of Hin with
        | In _ (if ?c then _ else _) => destruct c; [|destruct Hin]
        end.
        destruct Hin as [[=]|[]].
Qed.

Lemma get_values_one a s v :
  class a = store -> _get_values W a [s] = inr v ->
  s = "--" /\ v = PyList []
  \/ s <> "--"
     /\ match type_ a with
        | str => v = PyStr s
        | int => exists z, py_int W s = Some z /\ v = PyInt z
        end.
Proof.
  intros Hc. unfold _get_values. rewrite Hc. simpl.
  destruct (String.eqb_spec s "--") as [->|Hne]; simpl.
  - intros [= <-]. now left.
  - right. split; [assumption|]. unfold _get_value in *. destruct (type_ a).
    + now injection H as <-.
    + destruct (py_int W s) as [z|]; [|discriminate]. injection H as <-. eauto.
Qed.

End Provenance.

(** X10. After a successful parse each of the eight attributes holds a
    value taken from the command line: an argument string, or what follows
    the first [=] of one, as it is for the seven string flags and converted
    by [int] for the port (and the empty list when that string is [--]).
    No attribute keeps a default. *)
Theorem values_from_command_line W argv args d ty :
  Argparse.parse_args W parser argv = Parsed args ->
  In (d, ty) fields ->
  exists s,
    on_command_line argv s
    /\ (s = "--" /\ args !! d = Some (PyList [])
        \/ s <> "--"
           /\ match ty with
              | str => args !! d = Some (PyStr s)
              | int => exists z, py_int W s = Some z /\ args !! d = Some (PyInt z)
              end).
Proof.
  intros Hparsed Hd.
  destruct (parse_args_Parsed W argv args Hparsed)
    as (pats & st & Hpats & Hcons & Hnil & _ & ->).
  destruct (field_action d ty Hd) as (a & Ha & Hreq & Hda).
  pose proof (required_actions_nil parser _ a Hnil Ha Hreq) as Hseen.
  rewrite Hda in Hseen. clear Ha Hreq Hda. clear a. revert d ty Hd Hseen.
  apply (consume_invariant_values W parser
           (fun st => forall d ty, In (d, ty) fields -> d ∈ seen_actions st ->
              exists s, on_command_line argv s
                /\ (s = "--" /\ namespace st !! d = Some (PyList [])
                    \/ s <> "--"
                       /\ match ty with
                          | str => namespace st !! d = Some (PyStr s)
                          | int => exists z, py_int W s = Some z
                                     /\ namespace st !! d = Some (PyInt z)
                          end))
           (fun a s => on_command_line argv s
                       /\ exists os, In (os, a) (option_string_actions parser)))
    with (n := length (combine argv pats)) (items := combine argv pats)
         (st := initial_state parser); try assumption.
  - auto.
  - intros st0 a s os st' [Hs [os' Hoa]] Hcl HI Ht d ty Hd.
    apply take_action_Continue in Ht. destruct Ht as (v' & Hv & _ & ->). simpl.
    destruct (decide (d = dest a)) as [->|Hne].
    + intros _. exists s. split; [assumption|].
      rewrite lookup_insert_eq.
      pose proof (table_fields os' a Hoa Hcl) as Hf.
      rewrite (fields_functional _ _ _ Hd Hf).
      destruct (get_values_one W a s v' Hcl Hv) as [[-> ->]|[Hne Hty]];
        [now left|right]. split; [assumption|].
      destruct (type_ a); [now subst|].
      destruct Hty as (z & Hz & ->). eauto.
    + intros Hin. apply elem_of_union in Hin as [Heq%elem_of_singleton|Hin];
        [contradiction|].
      destruct (HI d ty Hd Hin) as (s' & Hs' & Hcase). exists s'.
      split; [assumption|]. rewrite lookup_insert_ne by congruence. exact Hcase.
  - lia.
  - intros tok a os e Hin Hcl.
    destruct (arg_strings_pattern_O W argv pats tok _ Hpats Hin) as [Htok Hc].
    destruct (parse_optional_explicit W tok a os e Hc Hcl) as [l Hl].
    split; [right; eauto|].
    apply parse_optional_spells in Hc. exists os. tauto.
  - intros tok a os v Hin HA.
    split; [left; eapply in_combine_l; exact HA|].
    destruct (items_spelled W argv pats tok a os None Hpats Hin) as (_ & Hoa & _).
    eauto.
  - simpl. intros d ty _ Hin. now apply elem_of_empty in Hin.
Qed.

Lemma values_from_command_line_witness :
  exists s,
    on_command_line argv_example s
    /\ (s = "--" /\ args_example !! "smtp_port" = Some (PyList [])
        \/ s <> "--"
           /\ exists z, ascii_int s = Some z
                /\ args_example !! "smtp_port" = Some (PyInt z)).
Proof.
  refine (values_from_command_line (peer 7 None None None None) argv_example
            args_example "smtp_port" int _ _).
  - vm_compute. reflexivity.
  - in_list.
Defined.

(** ** The payload of the text part *)

Lemma b64_char_plain n :
  (N_of_ascii (b64_char n) <? 128)%N = true
  /\ Ascii.eqb LF (b64_char n) = false.
Proof.
  unfold b64_char.
  assert (Hall : Forall (fun c => (N_of_ascii c <? 128)%N = true
                                  /\ Ascii.eqb LF c = false)
                   ("="%char :: b64_alphabet))
    by (repeat constructor).
  rewrite List.Forall_forall in Hall. apply Hall.
  destruct (nth_in_or_default (N.to_nat n) b64_alphabet "="%char) as [H| ->].
  - right. exact H.
  - now left.
Qed.

Lemma is_ascii_app s1 s2 : is_ascii (s1 ++ s2) = is_ascii s1 && is_ascii s2.
Proof.
  unfold is_ascii. rewrite list_ascii_app. apply forallb_app.
Qed.

(** The encoded text of a block: ASCII, no line break, four characters
    for every three bytes begun. *)
Lemma b2a_base64_plain : forall l,
  is_ascii (b2a_base64 l) = true
  /\ contains LF (b2a_base64 l) = false
  /\ (String.length (b2a_base64 l) <= 4 * ((length l + 2) / 3))%nat.
Proof.
  assert (Hc : forall n s,
             is_ascii (String (b64_char n) s) = is_ascii s
             /\ contains LF (String (b64_char n) s) = contains LF s).
  { intros n s. destruct (b64_char_plain n) as [H1 H2]. unfold is_ascii.
    simpl. now rewrite H1, H2. }
  induction l as [|a|a b|a b c l IH] using list_ind3.
  - repeat split. simpl. lia.
  - cbn [b2a_base64]. rewrite !(proj1 (Hc _ _)), !(proj2 (Hc _ _)).
    repeat split. simpl. lia.
  - cbn [b2a_base64]. rewrite !(proj1 (Hc _ _)), !(proj2 (Hc _ _)).
    repeat split. simpl. lia.
  - destruct IH as (H1 & H2 & H3).
    cbn [b2a_base64]. rewrite !(proj1 (Hc _ _)), !(proj2 (Hc _ _)).
    repeat split; try assumption. cbn [String.length length].
    replace (S (S (S (length l))) + 2)%nat with (length l + 2 + 1 * 3)%nat by lia.
    rewrite Nat.div_add by lia. lia.
Qed.

Lemma split_lines_aux_line x : forall rest acc,
  contains LF x = false ->
  split_lines_aux (x ++ String LF rest) acc
  = (acc ++ x) :: split_lines_aux rest EmptyString.
Proof.
  induction x as [|c x IH]; intros rest acc; simpl.
  - intros _. now rewrite append_empty_r.
  - rewrite (Ascii.eqb_sym LF c). destruct (Ascii.eqb c LF); [discriminate|].
    simpl. intros H. rewrite IH by assumption. now rewrite append_assoc.
Qed.

(** The body encoding: ASCII, in lines of at most 76 characters. *)
Lemma body_encode_lines_plain fuel : forall l,
  is_ascii (body_encode_lines fuel l) = true
  /\ Forall (fun line => (String.length line <= 76)%nat)
       (split_lines (body_encode_lines fuel l)).
Proof.
  induction fuel as [|fuel IH]; intros l.
  - destruct l; (split; [reflexivity|]); cbn;
      (constructor; [simpl; lia|constructor]).
  - destruct l as [|b l].
    + split; [reflexivity|]. cbn. constructor; [simpl; lia|constructor].
    + cbn [body_encode_lines].
      destruct (b2a_base64_plain (firstn 57 (b :: l))) as (H1 & H2 & H3).
      destruct (IH (skipn 57 (b :: l))) as [H4 H5].
      split.
      * rewrite !is_ascii_app, H1, H4. reflexivity.
      * unfold split_lines.
        change (NL ++ body_encode_lines fuel (skipn 57 (b :: l)))
          with (String LF (body_encode_lines fuel (skipn 57 (b :: l)))).
        rewrite split_lines_aux_line by assumption.
        constructor; [|exact H5].
        cbn [String.append].
        assert (length (firstn 57 (b :: l)) <= 57)%nat by apply firstn_le_length.
        assert ((length (firstn 57 (b :: l)) + 2) / 3 <= (57 + 2) / 3)%nat
          by (apply Nat.Div0.div_le_mono; lia).
        change ((57 + 2) / 3)%nat with 19%nat in *. lia.
Qed.

Lemma create_message_Ok W args fx msg fx' :
  create_message W args fx = (Ok msg, fx') ->
  exists from_email to_email subject body part,
    args !! "from_email" = Some from_email
    /\ args !! "to_email" = Some to_email
    /\ args !! "subject" = Some subject
    /\ args !! "body" = Some body
    /\ MIMEText W body "plain" = Ok part
    /\ msg = {| _headers := [ ("Content-Type", PyStr "multipart/mixed");
                              ("MIME-Version", PyStr "1.0");
                              ("From", from_email); ("To", to_email);
                              ("Subject", subject) ];
                _payload := [part] |}.
Proof.
  unfold create_message, bind, getattr, lift, ret, raise.
  destruct (args !! "from_email") as [f|]; [|discriminate].
  destruct (args !! "to_email") as [t|]; [|discriminate].
  destruct (args !! "subject") as [s|]; [|discriminate].
  destruct (args !! "body") as [b|]; [|discriminate].
  destruct (MIMEText W b "plain") as [part|] eqn:Hm; [|discriminate].
  intros [= <- _]. exists f, t, s, b, part. repeat split. exact Hm.
Qed.

(** X11. Whatever the body, the payload of the one part of the built
    message is ASCII; when its transfer encoding is base64, which is the
    case of a body that is not ASCII, its lines have at most 76
    characters. *)
Theorem payload_is_ascii W args fx msg fx' :
  create_message W args fx = (Ok msg, fx') ->
  exists part,
    _payload msg = [part]
    /\ is_ascii (part_payload part) = true
    /\ (get (part_headers part) "Content-Transfer-Encoding"
        = Some (PyStr "base64") ->
        Forall (fun line => (String.length line <= 76)%nat)
          (split_lines (part_payload part))).
Proof.
  intros Hc.
  destruct (create_message_Ok W args fx msg fx' Hc)
    as (f & t & s & b & part & _ & _ & _ & _ & Hpart & ->).
  exists part. split; [reflexivity|].
  unfold MIMEText in Hpart. destruct b as [|body| |]; try discriminate.
  destruct (is_ascii body) eqn:Ha.
  - injection Hpart as <-. split; [exact Ha|]. discriminate.
  - destruct (encode_utf8 W body) as [bytes|]; [|discriminate].
    injection Hpart as <-. cbn [part_payload]. unfold body_encode.
    split; [|intros _]; apply body_encode_lines_plain.
Qed.

Lemma payload_is_ascii_witness :
  exists part,
    _payload msg_example = [part] /\ is_ascii (part_payload part) = true.
Proof.
  destruct (payload_is_ascii (peer 7 None None None None) args_example
              no_effects msg_example no_effects) as (part & H1 & H2 & _).
  - vm_compute. reflexivity.
  - exists part. split; assumption.
Defined.

(** ** The boundary *)

Lemma append_inv_head (a x y : string) : a ++ x = a ++ y -> x = y.
Proof. induction a as [|c a IH]; simpl; [auto|]. intros [= H]. auto. Qed.

Lemma length_append (s1 s2 : string) :
  String.length (s1 ++ s2) = (String.length s1 + String.length s2)%nat.
Proof. induction s1 as [|c s1 IH]; simpl; [reflexivity|]. now rewrite IH. Qed.

Lemma append_inv_tail (t : string) : forall s1 s2, s1 ++ t = s2 ++ t -> s1 = s2.
Proof.
  induction s1 as [|c s1 IH]; intros [|d s2]; simpl; intros H.
  - reflexivity.
  - apply (f_equal String.length) in H. simpl in H. rewrite length_append in H. lia.
  - apply (f_equal String.length) in H. simpl in H. rewrite length_append in H. lia.
  - injection H as -> H. f_equal. now apply IH.
Qed.

Lemma decimal_inj m n : decimal m = decimal n -> m = n.
Proof.
  unfold decimal. intros H.
  apply (f_equal NilEmpty.uint_of_string) in H. rewrite !NilEmpty.usu in H.
  injection H as H. apply (f_equal N.of_uint) in H.
  now rewrite !Unsigned.of_to in H.
Qed.

Lemma decimal_no_dashes n s : decimal n <> s ++ "--".
Proof.
  unfold decimal. intros H.
  apply (f_equal NilEmpty.uint_of_string) in H. rewrite NilEmpty.usu in H.
  assert (Hn : NilEmpty.uint_of_string (s ++ "--") = None).
  { clear H. induction s as [|c s IH]; [reflexivity|].
    simpl. rewrite IH. reflexivity. }
  congruence.
Qed.

Section Boundary.

Variable boundary : string.
Variable text : string.

(** No line is the delimiter of two candidates. *)
Lemma hit_once b counter j line :
  candidate_before boundary b counter -> (counter <= j)%N ->
  delimits b line = true -> delimits (boundary ++ "." ++ decimal j) line = false.
Proof.
  intros Hb Hj Hh. destruct (delimits (boundary ++ "." ++ decimal j) line) eqn:Hc;
    [exfalso|reflexivity].
  unfold delimits in Hh, Hc.
  apply orb_prop in Hh. apply orb_prop in Hc.
  rewrite !String.eqb_eq in Hh, Hc.
  assert (Heq : "--" ++ b = "--" ++ boundary ++ "." ++ decimal j
             \/ "--" ++ b = "--" ++ (boundary ++ "." ++ decimal j) ++ "--"
             \/ "--" ++ b ++ "--" = "--" ++ boundary ++ "." ++ decimal j
             \/ "--" ++ b ++ "--" = "--" ++ (boundary ++ "." ++ decimal j) ++ "--")
    by (destruct Hh as [<-|<-], Hc as [Hc|Hc]; auto).
  clear Hh Hc. rewrite !append_assoc in Heq.
  destruct Hb as [->|(i & Hi & ->)]; rewrite ?append_assoc in Heq.
  - destruct Heq as [H|[H|[H|H]]];
      apply append_inv_head in H;
      first [ apply append_inv_head in H
            | rewrite <- (append_empty_r boundary) in H at 1;
              apply append_inv_head in H ];
      discriminate H.
  - destruct Heq as [H|[H|[H|H]]];
      do 3 apply append_inv_head in H.
    + apply decimal_inj in H. lia.
    + now apply decimal_no_dashes in H.
    + symmetry in H. now apply decimal_no_dashes in H.
    + apply append_inv_tail, decimal_inj in H. lia.
Qed.

Lemma existsb_remove (f : string -> bool) line : forall L,
  f line = false ->
  existsb f (List.filter (fun l => negb (String.eqb l line)) L) = existsb f L.
Proof.
  intros L Hf. induction L as [|l L IH]; simpl; [reflexivity|].
  destruct (String.eqb_spec l line) as [->|_]; simpl; rewrite IH;
    [now rewrite Hf|reflexivity].
Qed.

Lemma length_remove line : forall L : list string,
  In line L ->
  (length (List.filter (fun l => negb (String.eqb l line)) L) < length L)%nat.
Proof.
  induction L as [|l L IH]; simpl; [tauto|].
  destruct (String.eqb_spec l line) as [->|Hne]; simpl.
  - intros _. pose proof (filter_length_le (fun l => negb (String.eqb l line)) L).
    lia.
  - intros [?|Hin]; [contradiction|]. apply IH in Hin. lia.
Qed.

(** With as much fuel as there are lines the search ends at a candidate
    that is the delimiter of no line. *)
Lemma free_boundary_free : forall fuel L b counter,
  (length L <= fuel)%nat ->
  candidate_before boundary b counter ->
  boundary_occurs b text = existsb (delimits b) L ->
  (forall j, (counter <= j)%N ->
     boundary_occurs (boundary ++ "." ++ decimal j) text
     = existsb (delimits (boundary ++ "." ++ decimal j)) L) ->
  boundary_occurs (free_boundary fuel boundary b counter text) text = false.
Proof.
  induction fuel as [|fuel IH]; intros L b counter Hlen Hb Hocc Hlater.
  - destruct L; [|simpl in Hlen; lia]. simpl in Hocc.
    simpl. rewrite Hocc. simpl. exact Hocc.
  - cbn [free_boundary].
    destruct (boundary_occurs b text) eqn:Ho; [|exact Ho]. cbn [negb].
    symmetry in Hocc. apply existsb_exists in Hocc as (line & Hin & Hhit).
    apply (IH (List.filter (fun l => negb (String.eqb l line)) L)).
    + pose proof (length_remove line L Hin). lia.
    + right. exists counter. split; [lia|reflexivity].
    + rewrite existsb_remove; [apply Hlater; lia|].
      eapply hit_once; [exact Hb|lia|exact Hhit].
    + intros j Hj. rewrite existsb_remove; [apply Hlater; lia|].
      eapply hit_once; [exact Hb|lia|exact Hhit].
Qed.

End Boundary.

(** The boundary the generator makes occurs in no line of the text. *)
Lemma make_boundary_free W text :
  boundary_occurs (_make_boundary W text) text = false.
Proof.
  unfold _make_boundary.
  apply (free_boundary_free _ text _ (split_lines text)).
  - lia.
  - now left.
  - reflexivity.
  - reflexivity.
Qed.

(** ** The text on the wire *)

Lemma free_boundary_prefix boundary text : forall fuel b counter,
  (exists s, b = boundary ++ s) ->
  exists s, free_boundary fuel boundary b counter text = boundary ++ s.
Proof.
  induction fuel as [|fuel IH]; intros b counter Hb; simpl;
    destruct (negb (boundary_occurs b text)); try assumption.
  apply IH. eauto.
Qed.

(** X12. The text handed to [sendmail]: the folded headers in the order
    Content-Type (with the boundary as its parameter), MIME-Version, From,
    To, Subject, then the blank line, the opening delimiter line, the
    headers and the body of the one part, and the closing delimiter line.
    The boundary starts with the fifteen [=] and the drawn token, and it is
    the delimiter of no line of the part. *)
Theorem wire_format W args fx msg fx' data :
  create_message W args fx = (Ok msg, fx') ->
  as_string W msg = Ok data ->
  exists from_email to_email subject part headers part_head suffix,
    let boundary :=
      "===============" ++ _fmt (randrange W) ++ "==" ++ suffix in
    let part_text := part_head ++ _write_lines (part_payload part) in
    args !! "from_email" = Some from_email
    /\ args !! "to_email" = Some to_email
    /\ args !! "subject" = Some subject
    /\ _payload msg = [part]
    /\ _write_headers W
         [ ("Content-Type",
            PyStr ("multipart/mixed; boundary=" ++ QUOTE ++ boundary ++ QUOTE));
           ("MIME-Version", PyStr "1.0");
           ("From", from_email); ("To", to_email); ("Subject", subject) ]
       = Ok headers
    /\ _write_headers W (part_headers part) = Ok part_head
    /\ data = headers ++ "--" ++ boundary ++ NL
              ++ part_text ++ NL ++ "--" ++ boundary ++ "--" ++ NL
    /\ boundary_occurs boundary part_text = false.
Proof.
  intros Hc Hs.
  destruct (create_message_Ok W args fx msg fx' Hc)
    as (f & t & s & b & part & Hf & Ht & Hsu & _ & _ & ->).
  unfold as_string in Hs. cbn [_payload _headers flatten_parts rbind] in Hs.
  unfold flatten_text in Hs.
  destruct (_write_headers W (part_headers part)) as [part_head|] eqn:Hph;
    [|discriminate].
  cbn [rbind join] in Hs.
  set (part_text := part_head ++ _write_lines (part_payload part)) in *.
  pose proof (make_boundary_free W part_text) as Hfree.
  destruct (free_boundary_prefix
              ("===============" ++ _fmt (randrange W) ++ "==") part_text
              (S (length (split_lines part_text)))
              ("===============" ++ _fmt (randrange W) ++ "==") 0%N)
    as [suffix Hsuf]; [exists EmptyString; now rewrite append_empty_r|].
  fold (_make_boundary W part_text) in Hsuf.
  rewrite !append_assoc in Hsuf.
  remember (_make_boundary W part_text) as boundary eqn:Hb.
  cbn [set_boundary map] in Hs.
  change (String.eqb (lower "Content-Type") "content-type") with true in Hs.
  change (String.eqb (lower "MIME-Version") "content-type") with false in Hs.
  change (String.eqb (lower "From") "content-type") with false in Hs.
  change (String.eqb (lower "To") "content-type") with false in Hs.
  change (String.eqb (lower "Subject") "content-type") with false in Hs.
  cbv iota in Hs.
  match type of Hs with
  | rbind ?w _ = _ => destruct w as [headers|] eqn:Hh; [|discriminate]
  end.
  cbn [rbind] in Hs. injection Hs as <-.
  exists f, t, s, part, headers, part_head, suffix. cbv zeta.
  rewrite <- Hsuf. fold part_text.
  repeat (split; [first [assumption|reflexivity]|]). exact Hfree.
Qed.

Lemma wire_format_witness :
  exists part_head suffix,
    boundary_occurs ("===============" ++ _fmt 7 ++ "==" ++ suffix)
      (part_head ++ _write_lines "Hello") = false.
Proof.
  destruct (wire_format (peer 7 None None None None) args_example no_effects
              msg_example no_effects
              (match as_string (peer 7 None None None None) msg_example with
               | Ok data => data
               | Raise _ => EmptyString
               end))
    as (f & t & s & part & headers & part_head & suffix & H);
    [vm_compute; reflexivity|vm_compute; reflexivity|].
  cbv zeta in H. destruct H as (_ & _ & _ & Hp & _ & _ & _ & Hfree).
  injection Hp as <-. exists part_head, suffix. exact Hfree.
Defined.

Lemma write_lines_no_CR : forall n s,
  (String.length s <= n)%nat -> contains CR (_write_lines s) = false.
Proof.
  induction n as [|n IH]; intros s Hlen.
  - destruct s; [reflexivity|simpl in Hlen; lia].
  - destruct s as [|c rest]; [reflexivity|]. simpl in Hlen.
    cbn [_write_lines].
    destruct (Ascii.eqb_spec c CR) as [->|Hc].
    + destruct rest as [|c' rest']; [reflexivity|]. simpl in Hlen.
      destruct (Ascii.eqb c' LF); cbn [contains];
        change (Ascii.eqb CR LF) with false; apply IH; simpl; lia.
    + cbn [contains]. rewrite IH by lia.
      destruct (Ascii.eqb_spec CR c); [congruence|reflexivity].
Qed.

Lemma write_lines_id s : contains CR s = false -> _write_lines s = s.
Proof.
  induction s as [|c s IH]; [reflexivity|]. cbn [contains _write_lines].
  rewrite (Ascii.eqb_sym CR c). destruct (Ascii.eqb c CR); [discriminate|].
  simpl. intros H. now rewrite IH.
Qed.

(** X13. The generator writes a body with [\n] line ends only: the
    written text has no carriage return, it is the body itself exactly when
    the body has none, and writing it once more changes nothing. *)
Theorem line_ends_become_LF s :
  contains CR (_write_lines s) = false
  /\ (contains CR s = false <-> _write_lines s = s)
  /\ _write_lines (_write_lines s) = _write_lines s.
Proof.
  assert (H : contains CR (_write_lines s) = false)
    by (apply (write_lines_no_CR (String.length s)); lia).
  split; [exact H|]. split.
  - split; [apply write_lines_id|]. intros Heq. now rewrite <- Heq.
  - now apply write_lines_id.
Qed.

(** X14. An exception raised by the transport statements that is no
    instance of [Exception] is not caught by the handler of line 32: no
    diagnostic is printed; [SystemExit] ends the run with its own status and
    nothing on standard error, an interrupt with a traceback and a status
    other than 0. *)
Theorem base_exception_not_caught W argv args msg e fx :
  Argparse.parse_args W parser argv = Parsed args ->
  create_message W args no_effects = (Ok msg, no_effects) ->
  send W args msg no_effects = (Raise e, fx) ->
  isinstance_Exception e = false ->
  out (run W argv) = []
  /\ calls (run W argv) = network fx
  /\ (forall e', ~ In (diagnostic e') (err (run W argv)))
  /\ match e with
     | SystemExit code => status (run W argv) = code /\ err (run W argv) = []
     | _ => status (run W argv) <> 0%Z /\ err (run W argv) = [Traceback e]
     end.
Proof.
  intros Hp Hc Hs He.
  rewrite (run_sent W argv args msg _ _ Hp Hc Hs), He.
  destruct e as [code| |cls text]; try discriminate He; simpl;
    repeat split; auto; try lia; intros e' [[=]|[]].
Qed.

Lemma base_exception_not_caught_witness :
  status (run (peer 7 None None (Some (SystemExit 3)) None) argv_example) = 3%Z
  /\ err (run (peer 7 None None (Some (SystemExit 3)) None) argv_example) = [].
Proof.
  refine (proj2 (proj2 (proj2 (base_exception_not_caught
            (peer 7 None None (Some (SystemExit 3)) None) argv_example
            args_example msg_example (SystemExit 3)
            (called no_effects
               [ Smtplib.SMTP_SSL (PyStr "mail.example.com") (PyInt 465);
                 Smtplib.login (PyStr "a@example.com") (PyStr "secret");
                 Smtplib.sendmail (PyStr "a@example.com") (PyStr "b@example.com")
                   (match as_string (peer 7 None None None None) msg_example with
                    | Ok data => data
                    | Raise _ => EmptyString
                    end) ])
            _ _ _ _)))); vm_compute; reflexivity.
Defined.


